(** * py-factorgraph: factor graphs and loopy belief propagation

    A shallow embedding of [graph.py] (classes [Graph], [RV], [Factor]) and
    theorems about joint evaluation, the brute-force best joint assignment,
    belief shapes and the message-passing sweep.

    Conventions of the embedding
    - Python floats are IEEE binary64: Rocq's primitive [float].
    - Python objects live in a [Heap]; an object reference is its index.
      [RV] and [Factor] objects refer to each other through references, as
      the Python objects do.
    - A raised exception is a [Raise e] result; the state at the moment of
      the raise is dropped, since nothing in the module catches exceptions.
    - Console output ([print]) is not part of the model. *)

From Stdlib Require Import ZArith Floats.
From stdpp Require Import gmap strings list sorting.

Set Warnings "-inexact-float".
Set Default Proof Using "Type".

Local Open Scope string_scope.
Local Open Scope Z_scope.

(** ** Exceptions and results *)

Inductive exn : Set :=
  | AssertionError
  | TypeError
  | IndexError
  | KeyError
  | ValueError
  | Unsupported.
(* [Unsupported] is not a Python exception: it marks the one corner the
   embedding leaves out, numpy arithmetic on a factor value that is still an
   array of rank one or more (see [py_imul]). *)

Inductive result (A : Type) : Type :=
  | Ok (a : A)
  | Raise (e : exn).
Arguments Ok {A} a.
Arguments Raise {A} e.

#[global] Instance result_ret : MRet result := λ A a, Ok a.
#[global] Instance result_bind : MBind result :=
  λ A B k m, match m with Ok a => k a | Raise e => Raise e end.

(** [assert b] *)
Definition py_assert (b : bool) : result unit :=
  if b then Ok tt else Raise AssertionError.

(** [if debug: body] *)
Definition when (debug : bool) (body : result unit) : result unit :=
  if debug then body else Ok tt.

(** A check either passes or raises [AssertionError]. *)
Definition asserts (m : result unit) : Prop := m = Ok tt ∨ m = Raise AssertionError.

(** [for a in l: body a] where the body only checks. *)
Fixpoint for_each {A} (body : A → result unit) (l : list A) : result unit :=
  match l with
  | [] => Ok tt
  | a :: l' => _ ← body a; for_each body l'
  end.

(** A list comprehension [[body a for a in l]]. *)
Fixpoint comprehension {A B} (body : A → result B) (l : list A) : result (list B) :=
  match l with
  | [] => Ok []
  | a :: l' => b ← body a; bs ← comprehension body l'; Ok (b :: bs)
  end.

(** ** numpy arrays *)

(** A message is a one-dimensional float array. *)
Abbreviation vec := (list float).

(** A belief is a dense array: its [shape] and its entries in row-major
    order.  A numpy array always has [length data = product of shape]. *)
Record ndarray : Set := mk_ndarray { shape : list nat; data : list float }.

Definition size_of (s : list nat) : nat := foldr Nat.mul 1%nat s.

Definition nd_wf (a : ndarray) : Prop := length (data a) = size_of (shape a).

(** What a Python expression over beliefs can evaluate to: [None], a numpy
    scalar, or an array (possibly of rank 0). *)
Inductive pyval : Set :=
  | PyNone
  | PyFloat (v : float)
  | PyArray (a : ndarray).

(** [np.ones(n)] *)
Definition np_ones (n : Z) : result vec :=
  if n <? 0 then Raise ValueError else Ok (replicate (Z.to_nat n) 1%float).

(** [ret[i]] for an integer [i]: negative indices count from the end of the
    first axis; indexing a one-dimensional array gives a scalar. *)
Definition getitem (ret : pyval) (i : Z) : result pyval :=
  match ret with
  | PyNone => Raise TypeError
  | PyFloat _ => Raise IndexError
  | PyArray a =>
      match shape a with
      | [] => Raise IndexError
      | d :: ds =>
          let j := if i <? 0 then i + Z.of_nat d else i in
          if (j <? 0) || (Z.of_nat d <=? j) then Raise IndexError
          else
            let k := size_of ds in
            let chunk := take k (drop (Z.to_nat j * k) (data a)) in
            match ds with
            | [] => match chunk with
                    | v :: _ => Ok (PyFloat v)
                    | [] => Raise IndexError
                    end
            | _ :: _ => Ok (PyArray (mk_ndarray ds chunk))
            end
      end
  end.

(** Binary operations on one-dimensional arrays broadcast a length-one
    operand and otherwise need equal lengths. *)
Definition broadcast2 {A B C} (op : A → B → C) (a : list A) (b : list B)
  : result (list C) :=
  if bool_decide (length a = length b) then Ok (zip_with op a b)
  else match a, b with
       | [x], _ => Ok (map (op x) b)
       | _, [y] => Ok (map (λ x, op x y) a)
       | _, _ => Raise ValueError
       end.

(** [np.isclose(x, y)] with its default tolerances [rtol=1e-05],
    [atol=1e-08]: [|x - y| <= atol + rtol * |y|] on finite entries, plain
    equality when one of them is infinite or NaN. *)
Definition isclose_rtol : float := 1e-05%float.
Definition isclose_atol : float := 1e-08%float.

Definition isclose1 (x y : float) : bool :=
  if is_finite x && is_finite y
  then (abs (x - y) <=? isclose_atol + isclose_rtol * abs y)%float
  else (x =? y)%float.

Definition np_isclose (a b : vec) : result (list bool) := broadcast2 isclose1 a b.

(** [sum(bools)]: the number of [True] entries. *)
Definition py_sum_bools (l : list bool) : Z := Z.of_nat (length (filter (λ b, b = true) l)).

(** ** Module constants *)

Definition DEBUG_DEFAULT : bool := true.
Definition LBP_MAX_ITERS : nat := 50.
Definition EPSILON : float := 0.0001%float.

(** ** Values and assignments *)

(** A value given to an RV: an [int] index or a [str] label. *)
Inductive value : Set :=
  | VInt (z : Z)
  | VStr (s : string).

#[global] Instance value_eq_dec : EqDecision value.
Proof. solve_decision. Defined.

(** An assignment [{str: str|int}]. *)
Abbreviation assignment := (gmap string value).

(** ** Objects *)

Module RV.
Record t : Set := mk {
    name : string;
    n_opts : Z;
    labels : list string;
    debug : bool;
    _factors : list nat;              (* references to Factor objects *)
    _outgoing : option (list vec)     (* None until init_lbp *)
}.
End RV.

Module Factor.
Record t : Set := mk {
    name : string;
    debug : bool;
    _rvs : list nat;                  (* references to RV objects *)
    _belief : option ndarray;
    _outgoing : option (list vec)
}.
End Factor.

Module Graph.
Record t : Set := mk {
    debug : bool;
    _rvs : list (string * nat);       (* the dict, in its iteration order *)
    _factors : list nat
}.
End Graph.

#[global] Instance RV_inhabited : Inhabited RV.t :=
  populate (RV.mk "" 0 [] DEBUG_DEFAULT [] None).
#[global] Instance Factor_inhabited : Inhabited Factor.t :=
  populate (Factor.mk "" DEBUG_DEFAULT [] None None).

Record Heap : Set := mk_heap { rv_objs : list RV.t; factor_objs : list Factor.t }.

(** Dereferencing.  A reference held by a Python object is never dangling;
    the default only makes the lookup total. *)
Definition the_rv (h : Heap) (r : nat) : RV.t := rv_objs h !!! r.
Definition the_factor (h : Heap) (f : nat) : Factor.t := factor_objs h !!! f.

(** Dict operations on [Graph._rvs]. *)
Fixpoint dict_get {V} (d : list (string * V)) (k : string) : option V :=
  match d with
  | [] => None
  | (k', v) :: d' => if bool_decide (k' = k) then Some v else dict_get d' k
  end.

(** ** class RV *)

(** Python 2 orders an [int] before a [str], so [label < n_opts] is [False]
    for a [str] label. *)
Definition py_lt_int (label : value) (n : Z) : bool :=
  match label with
  | VInt z => z <? n
  | VStr _ => false
  end.

Definition is_int (label : value) : bool :=
  match label with VInt _ => true | VStr _ => false end.

Definition RV_has_label (self : RV.t) (label : value) : result bool :=
  if bool_decide (length (RV.labels self) = 0%nat) then
    _ ← when (RV.debug self) (py_assert (is_int label));
    Ok (py_lt_int label (RV.n_opts self))
  else
    (* the debug assertion [type(label) is int or type(label) is str] holds
       for every [value] *)
    match label with
    | VStr s => Ok (bool_decide (s ∈ RV.labels self))
    | VInt z => Ok (z <? RV.n_opts self)
    end.

(** [labels.index(s)] *)
Fixpoint list_index (s : string) (l : list string) : option nat :=
  match l with
  | [] => None
  | s' :: l' => if bool_decide (s' = s) then Some 0%nat else S <$> list_index s l'
  end.

Definition RV_get_int_label (self : RV.t) (label : value) : result Z :=
  match label with
  | VInt z => Ok z
  | VStr s => match list_index s (RV.labels self) with
              | Some i => Ok (Z.of_nat i)
              | None => Raise ValueError
              end
  end.

Definition RV_n_edges (self : RV.t) : nat := length (RV._factors self).

Definition RV_set_outgoing (self : RV.t) (o : option (list vec)) : RV.t :=
  RV.mk (RV.name self) (RV.n_opts self) (RV.labels self) (RV.debug self)
        (RV._factors self) o.

Definition RV_init_lbp (self : RV.t) : result RV.t :=
  out ← comprehension (λ _, np_ones (RV.n_opts self)) (RV._factors self);
  Ok (RV_set_outgoing self (Some out)).

(** ** class Factor *)

Definition Factor_n_edges (self : Factor.t) : nat := length (Factor._rvs self).

Definition Factor_set_outgoing (self : Factor.t) (o : option (list vec)) : Factor.t :=
  Factor.mk (Factor.name self) (Factor.debug self) (Factor._rvs self)
            (Factor._belief self) o.

Definition Factor_init_lbp (h : Heap) (self : Factor.t) : result Factor.t :=
  out ← comprehension (λ r, np_ones (RV.n_opts (the_rv h r))) (Factor._rvs self);
  Ok (Factor_set_outgoing self (Some out)).

(** The body is [return np.ones(rv.n_opts)]: [self] is not read. *)
Definition Factor_get_message_for (self : Factor.t) (rv : RV.t) : result vec :=
  np_ones (RV.n_opts rv).

(** The body is [return True]. *)
Definition Factor_recompute_outgoing (self : Factor.t) : Factor.t * bool :=
  (self, true).

Definition Factor_set_belief (h : Heap) (self : Factor.t) (b : ndarray)
  : result Factor.t :=
  _ ← when (Factor.debug self) (
        _ ← py_assert (bool_decide (length (shape b) = length (Factor._rvs self)));
        for_each (λ '(i, d),
            match Factor._rvs self !! i with
            | None => Raise IndexError
            | Some r => py_assert (bool_decide (Z.of_nat d = RV.n_opts (the_rv h r)))
            end) (imap pair (shape b)));
  Ok (Factor.mk (Factor.name self) (Factor.debug self) (Factor._rvs self)
                (Some b) (Factor._outgoing self)).

(** [assert rv.name in x; assert rv.has_label(x[rv.name])] *)
Definition check_assigned (x : assignment) (rv : RV.t) : result unit :=
  match x !! RV.name rv with
  | None => Raise AssertionError
  | Some label => ok ← RV_has_label rv label; py_assert ok
  end.

(** [for r in rvs: ret = ret[r.get_int_label(x[r.name])]] *)
Fixpoint eval_index (h : Heap) (x : assignment) (rvs : list nat) (ret : pyval)
  : result pyval :=
  match rvs with
  | [] => Ok ret
  | r :: rvs' =>
      let rv := the_rv h r in
      label ← match x !! RV.name rv with
              | Some l => Ok l
              | None => Raise KeyError
              end;
      i ← RV_get_int_label rv label;
      ret' ← getitem ret i;
      eval_index h x rvs' ret'
  end.

Definition is_ndarray (v : pyval) : bool :=
  match v with PyArray _ => true | _ => false end.

Definition Factor_eval (h : Heap) (self : Factor.t) (x : assignment) : result pyval :=
  _ ← when (Factor.debug self)
        (for_each (λ r, check_assigned x (the_rv h r)) (Factor._rvs self));
  ret ← eval_index h x (Factor._rvs self)
          (match Factor._belief self with
           | None => PyNone
           | Some b => PyArray b
           end);
  _ ← when (Factor.debug self) (py_assert (negb (is_ndarray ret)));
  Ok ret.

(** ** class RV, continued: the message update *)

(** The second loop of [RV.recompute_outgoing], one round per index [i]. *)
Fixpoint rv_send (n_opts : Z) (total : vec) (incoming old_outgoing : list vec)
    (idx : list nat) (outgoing : list vec) (convg : bool)
  : result (list vec * bool) :=
  match idx with
  | [] => Ok (outgoing, convg)
  | i :: idx' =>
      m ← match incoming !! i with Some m => Ok m | None => Raise IndexError end;
      new ← broadcast2 PrimFloat.div total m;
      outgoing' ← (if bool_decide (i < length outgoing)%nat
                   then Ok (<[i := new]> outgoing) else Raise IndexError);
      convg' ← (if convg then
                  old ← match old_outgoing !! i with
                        | Some o => Ok o
                        | None => Raise IndexError
                        end;
                  close ← np_isclose old new;
                  Ok (py_sum_bools close =? n_opts)
                else Ok false);
      rv_send n_opts total incoming old_outgoing idx' outgoing' convg'
  end.

Definition RV_recompute_outgoing (h : Heap) (self : RV.t) : result (RV.t * bool) :=
  _ ← when (RV.debug self) (py_assert (bool_decide (is_Some (RV._outgoing self))));
  old_outgoing ← match RV._outgoing self with
                 | Some o => Ok o
                 | None => Raise TypeError
                 end;
  total ← np_ones (RV.n_opts self);
  incoming ← comprehension (λ f,
                 m ← Factor_get_message_for (the_factor h f) self;
                 _ ← when (RV.debug self)
                       (py_assert (bool_decide (Z.of_nat (length m) = RV.n_opts self)));
                 Ok m) (RV._factors self);
  '(outgoing, convg) ← rv_send (RV.n_opts self) total incoming old_outgoing
                          (seq 0 (length (RV._factors self))) old_outgoing true;
  Ok (RV_set_outgoing self (Some outgoing), convg).

(** ** class Graph *)

(** [prod *= v] for a float [prod]. *)
Definition py_imul (prod : float) (v : pyval) : result float :=
  match v with
  | PyNone => Raise TypeError
  | PyFloat y => Ok (prod * y)%float
  | PyArray a =>
      match shape a, data a with
      | [], [y] => Ok (prod * y)%float
      | _, _ => Raise Unsupported
      end
  end.

Fixpoint joint_loop (h : Heap) (x : assignment) (fs : list nat) (prod : float)
  : result float :=
  match fs with
  | [] => Ok prod
  | f :: fs' =>
      v ← Factor_eval h (the_factor h f) x;
      prod' ← py_imul prod v;
      joint_loop h x fs' prod'
  end.

(** [assert name in self._rvs; assert self._rvs[name].has_label(label)] *)
Definition check_key (h : Heap) (self : Graph.t) (item : string * value) : result unit :=
  match dict_get (Graph._rvs self) item.1 with
  | None => Raise AssertionError
  | Some r => ok ← RV_has_label (the_rv h r) item.2; py_assert ok
  end.

(** [assert name in x; assert rv.has_label(x[name])] *)
Definition check_rv (h : Heap) (x : assignment) (item : string * nat) : result unit :=
  match x !! item.1 with
  | None => Raise AssertionError
  | Some label => ok ← RV_has_label (the_rv h item.2) label; py_assert ok
  end.

(** The two validation loops run over dicts; every failure in them is an
    [AssertionError], so the iteration order does not show in the result. *)
Definition Graph_joint (h : Heap) (self : Graph.t) (x : assignment) : result float :=
  _ ← when (Graph.debug self) (
        _ ← py_assert (bool_decide (size x = length (Graph._rvs self)));
        _ ← for_each (check_key h self) (map_to_list x);
        for_each (check_rv h x) (Graph._rvs self));
  joint_loop h x (Graph._factors self) 1%float.

(** [range(n)] *)
Definition py_range (n : Z) : list Z := seqZ 0 n.

Abbreviation best := (option assignment * float)%type.

(** The [for val in range(rv.n_opts)] loop of [_bf_bj_recurse]; [rec] is
    the recursive call on the remaining RVs. *)
Definition bj_loop (rec : assignment → result best) (assigned : assignment)
    (name : string) : list Z → best → result best :=
  fix loop vals cur :=
    match vals with
    | [] => Ok cur
    | val :: vals' =>
        '(full_a, r) ← rec (<[name := VInt val]> assigned);
        loop vals' (if (cur.2 <? r)%float then (full_a, r) else cur)
    end.

Fixpoint Graph_bf_bj_recurse (h : Heap) (self : Graph.t) (assigned : assignment)
    (todo : list nat) : result best :=
  match todo with
  | [] => r ← Graph_joint h self assigned; Ok (Some assigned, r)
  | r :: todo' =>
      let rv := the_rv h r in
      bj_loop (λ a, Graph_bf_bj_recurse h self a todo') assigned (RV.name rv)
              (py_range (RV.n_opts rv)) (None, 0%float)
  end.

Definition Graph_bf_best_joint (h : Heap) (self : Graph.t) : result best :=
  Graph_bf_bj_recurse h self ∅ (Graph._rvs self).*2.

(** ** Loopy belief propagation *)

(** [sorted(l, key=...)]: Python's sort is stable. *)
Fixpoint insert_by {A} (key : A → nat) (a : A) (l : list A) : list A :=
  match l with
  | [] => [a]
  | b :: l' => if (key a <=? key b)%nat then a :: b :: l' else b :: insert_by key a l'
  end.

Definition py_sorted {A} (key : A → nat) (l : list A) : list A :=
  foldr (insert_by key) [] l.

(** A node of the graph: an RV or a Factor object. *)
Inductive node : Set :=
  | RVNode (r : nat)
  | FactorNode (f : nat).

Definition store_rv (h : Heap) (r : nat) (rv : RV.t) : Heap :=
  mk_heap (<[r := rv]> (rv_objs h)) (factor_objs h).

Definition store_factor (h : Heap) (f : nat) (fac : Factor.t) : Heap :=
  mk_heap (rv_objs h) (<[f := fac]> (factor_objs h)).

Definition node_n_edges (h : Heap) (n : node) : nat :=
  match n with
  | RVNode r => RV_n_edges (the_rv h r)
  | FactorNode f => Factor_n_edges (the_factor h f)
  end.

Definition node_init_lbp (h : Heap) (n : node) : result Heap :=
  match n with
  | RVNode r => rv ← RV_init_lbp (the_rv h r); Ok (store_rv h r rv)
  | FactorNode f => fac ← Factor_init_lbp h (the_factor h f); Ok (store_factor h f fac)
  end.

Definition node_recompute_outgoing (h : Heap) (n : node) : result (Heap * bool) :=
  match n with
  | RVNode r =>
      '(rv, c) ← RV_recompute_outgoing h (the_rv h r); Ok (store_rv h r rv, c)
  | FactorNode f =>
      let '(fac, c) := Factor_recompute_outgoing (the_factor h f) in
      Ok (store_factor h f fac, c)
  end.

Definition Graph_sorted_nodes (h : Heap) (self : Graph.t) : list node :=
  let rvs := RVNode <$> (Graph._rvs self).*2 in
  let facs := FactorNode <$> Graph._factors self in
  py_sorted (node_n_edges h) (rvs ++ facs).

Fixpoint Graph_init_messages (h : Heap) (nodes : list node) : result Heap :=
  match nodes with
  | [] => Ok h
  | n :: nodes' => h' ← node_init_lbp h n; Graph_init_messages h' nodes'
  end.

(** One sweep: [for n in nodes: ... converged = converged and n_converged]. *)
Fixpoint lbp_sweep (h : Heap) (nodes : list node) (converged : bool)
  : result (Heap * bool) :=
  match nodes with
  | [] => Ok (h, converged)
  | n :: nodes' =>
      '(h', n_converged) ← node_recompute_outgoing h n;
      lbp_sweep h' nodes' (converged && n_converged)
  end.

(** [while cur_iter < LBP_MAX_ITERS and not converged]; [remaining] is
    [LBP_MAX_ITERS - cur_iter]. *)
Fixpoint lbp_while (remaining : nat) (h : Heap) (nodes : list node)
    (cur_iter : nat) (converged : bool) : result (Heap * nat * bool) :=
  match remaining with
  | O => Ok (h, cur_iter, converged)
  | S remaining' =>
      if converged then Ok (h, cur_iter, converged)
      else
        '(h', converged') ← lbp_sweep h nodes true;
        lbp_while remaining' h' nodes (S cur_iter) converged'
  end.

(** [Graph.lbp] returns [None]; the result here is the heap it leaves
    together with the final [cur_iter] and [converged]. *)
Definition Graph_lbp (h : Heap) (self : Graph.t) : result (Heap * nat * bool) :=
  let nodes := Graph_sorted_nodes h self in
  h' ← Graph_init_messages h nodes;
  lbp_while LBP_MAX_ITERS h' nodes 0 false.

(** ** Construction *)

Definition empty_heap : Heap := mk_heap [] [].

(** [RV(name, n_opts, labels, debug)]: the new object and its reference.
    The assertion that every label is a [str] holds by typing. *)
Definition RV_new (h : Heap) (name : string) (n_opts : Z) (labels : list string)
    (debug : bool) : result (Heap * nat) :=
  _ ← when debug (py_assert (bool_decide (length labels = 0%nat)
                             || bool_decide (Z.of_nat (length labels) = n_opts)));
  Ok (mk_heap (rv_objs h ++ [RV.mk name n_opts labels debug [] None]) (factor_objs h),
      length (rv_objs h)).

(** [RV.attach(factor)] *)
Definition RV_attach (self : RV.t) (factor : nat) : result RV.t :=
  _ ← when (RV.debug self)
        (for_each (λ f, py_assert (negb (bool_decide (f = factor)))) (RV._factors self));
  Ok (RV.mk (RV.name self) (RV.n_opts self) (RV.labels self) (RV.debug self)
            (RV._factors self ++ [factor]) (RV._outgoing self)).

(** [Factor.attach(rv)], on the objects referenced by [f] and [r]. *)
Definition Factor_attach (h : Heap) (f : nat) (r : nat) : result Heap :=
  let self := the_factor h f in
  _ ← when (Factor.debug self)
        (for_each (λ r', py_assert (negb (bool_decide (r' = r)))) (Factor._rvs self));
  rv ← RV_attach (the_rv h r) f;
  Ok (store_factor (store_rv h r rv) f
        (Factor.mk (Factor.name self) (Factor.debug self) (Factor._rvs self ++ [r])
                   None (Factor._outgoing self))).

Fixpoint attach_all (h : Heap) (f : nat) (rvs : list nat) : result Heap :=
  match rvs with
  | [] => Ok h
  | r :: rvs' => h' ← Factor_attach h f r; attach_all h' f rvs'
  end.

(** [Factor(rvs, name, debug)] *)
Definition Factor_new (h : Heap) (rvs : list nat) (name : string) (debug : bool)
  : result (Heap * nat) :=
  let f := length (factor_objs h) in
  h' ← attach_all (mk_heap (rv_objs h) (factor_objs h ++ [Factor.mk name debug [] None None]))
                  f rvs;
  Ok (h', f).

(** [f.set_belief(b)] on the object referenced by [f]. *)
Definition set_belief_at (h : Heap) (f : nat) (b : ndarray) : result Heap :=
  fac ← Factor_set_belief h (the_factor h f) b; Ok (store_factor h f fac).

Definition Graph_new (debug : bool) : Graph.t := Graph.mk debug [] [].

Fixpoint dict_set {V} (d : list (string * V)) (k : string) (v : V) : list (string * V) :=
  match d with
  | [] => [(k, v)]
  | (k', v') :: d' => if bool_decide (k' = k) then (k, v) :: d' else (k', v') :: dict_set d' k v
  end.

Definition Graph_add_rv (h : Heap) (self : Graph.t) (r : nat) : result Graph.t :=
  let name := RV.name (the_rv h r) in
  _ ← when (Graph.debug self) (py_assert (negb (bool_decide (is_Some (dict_get (Graph._rvs self) name)))));
  Ok (Graph.mk (Graph.debug self) (dict_set (Graph._rvs self) name r) (Graph._factors self)).

(** [sorted] orders the RV objects by their addresses; any fixed order of
    the references gives the same answer to [factor_rvs != rvs]. *)
Definition Graph_add_factor (h : Heap) (self : Graph.t) (factor : nat) : result Graph.t :=
  _ ← when (Graph.debug self) (
        _ ← py_assert (negb (bool_decide (factor ∈ Graph._factors self)));
        let factor_rvs := py_sorted id (Factor._rvs (the_factor h factor)) in
        for_each (λ f, py_assert (negb (bool_decide
                         (factor_rvs = py_sorted id (Factor._rvs (the_factor h f))))))
                 (Graph._factors self));
  Ok (Graph.mk (Graph.debug self) (Graph._rvs self) (Graph._factors self ++ [factor])).

(** ** The graph of [pyfac_test] *)

Definition vector (l : list float) : ndarray := mk_ndarray [length l] l.

Definition pyfac_test_graph : result (Heap * Graph.t) :=
  '(h, a) ← RV_new empty_heap "a" 3 [] DEBUG_DEFAULT;
  '(h, b) ← RV_new h "b" 2 [] DEBUG_DEFAULT;
  '(h, f_b) ← Factor_new h [b] "" DEBUG_DEFAULT;
  h ← set_belief_at h f_b (vector [0.3; 0.7]%float);
  '(h, f_ab) ← Factor_new h [a; b] "" DEBUG_DEFAULT;
  h ← set_belief_at h f_ab (mk_ndarray [3; 2]%nat [0.2; 0.8; 0.4; 0.6; 0.1; 0.9]%float);
  g ← Graph_add_rv h (Graph_new DEBUG_DEFAULT) a;
  g ← Graph_add_rv h g b;
  g ← Graph_add_factor h g f_b;
  g ← Graph_add_factor h g f_ab;
  Ok (h, g).

Definition pyfac_heap : Heap :=
  Eval vm_compute in
    match pyfac_test_graph with Ok (h, _) => h | Raise _ => empty_heap end.
Definition pyfac_graph : Graph.t :=
  Eval vm_compute in
    match pyfac_test_graph with Ok (_, g) => g | Raise _ => Graph_new true end.

(** ** Vocabulary of the statements *)

(** The domain of an RV: its indices and, when it has labels, its labels. *)
Definition in_domain (rv : RV.t) (v : value) : Prop :=
  match v with
  | VInt z => 0 ≤ z < RV.n_opts rv
  | VStr s => s ∈ RV.labels rv
  end.

(** Every RV of the graph has an entry whose value is in its domain. *)
Definition covers (h : Heap) (g : Graph.t) (x : assignment) : Prop :=
  ∀ name r, (name, r) ∈ Graph._rvs g →
    ∃ v, x !! name = Some v ∧ in_domain (the_rv h r) v.

(** ... and the assignment has no other entries. *)
Definition valid_assignment (h : Heap) (g : Graph.t) (x : assignment) : Prop :=
  covers h g x
  ∧ size x = length (Graph._rvs g)
  ∧ ∀ name, is_Some (x !! name) → is_Some (dict_get (Graph._rvs g) name).

(** The names of the RVs a factor is attached to, and an assignment
    restricted to them. *)
Definition factor_names (h : Heap) (f : Factor.t) : list string :=
  (λ r, RV.name (the_rv h r)) <$> Factor._rvs f.

Definition restrict (h : Heap) (f : Factor.t) (x : assignment) : assignment :=
  filter (λ kv, kv.1 ∈ factor_names h f) x.

(** A factor's [eval] at the assignment restricted to its attached RVs. *)
Definition eval_restricted (h : Heap) (x : assignment) (f : nat) : result pyval :=
  Factor_eval h (the_factor h f) (restrict h (the_factor h f) x).

(** The index expression [r.get_int_label(x[r.name])] of [Factor.eval]. *)
Definition label_index (h : Heap) (x : assignment) (r : nat) : result Z :=
  label ← match x !! RV.name (the_rv h r) with
          | Some l => Ok l
          | None => Raise KeyError
          end;
  RV_get_int_label (the_rv h r) label.

(** The number a factor value contributes to the product. *)
Definition as_number (v : pyval) : option float :=
  match v with
  | PyFloat y => Some y
  | PyArray (mk_ndarray [] [y]) => Some y
  | _ => None
  end.

(** The belief's axes agree with the attached RVs, in attachment order. *)
Definition shape_matches (h : Heap) (f : Factor.t) (b : ndarray) : Prop :=
  Forall2 (λ d r, Z.of_nat d = RV.n_opts (the_rv h r)) (shape b) (Factor._rvs f).

#[global] Instance shape_matches_dec h f b : Decision (shape_matches h f b).
Proof. unfold shape_matches. apply _. Defined.

(** The invariant of a factor: a belief that is set fits the attached RVs. *)
Definition belief_fits (h : Heap) (f : Factor.t) : Prop :=
  ∀ b, Factor._belief f = Some b → shape_matches h f b.

(** Every RV called [name], in the graph's dict or attached to one of its
    factors, has cardinality [n]. *)
Definition cardinality_of (h : Heap) (g : Graph.t) (name : string) (n : Z) : Prop :=
  (∀ r, (name, r) ∈ Graph._rvs g → RV.n_opts (the_rv h r) = n)
  ∧ (∀ f r, f ∈ Graph._factors g → r ∈ Factor._rvs (the_factor h f) →
       RV.name (the_rv h r) = name → RV.n_opts (the_rv h r) = n).

(** A factor of a graph built in the documented order: attached to at
    least one RV, all of them RVs of the graph under their own names (with
    as many labels as values, when labelled), and holding a belief that fits
    them. *)
Definition factor_wf (h : Heap) (g : Graph.t) (f : Factor.t) : Prop :=
  Factor._rvs f ≠ []
  ∧ (∃ b, Factor._belief f = Some b ∧ shape_matches h f b ∧ nd_wf b)
  ∧ ∀ r, r ∈ Factor._rvs f →
      (RV.name (the_rv h r), r) ∈ Graph._rvs g
      ∧ (RV.labels (the_rv h r) = []
         ∨ Z.of_nat (length (RV.labels (the_rv h r))) = RV.n_opts (the_rv h r)).

Definition graph_wf (h : Heap) (g : Graph.t) : Prop :=
  ∀ f, f ∈ Graph._factors g → factor_wf h g (the_factor h f).

(** The rank differs, or some axis length differs from its RV's cardinality. *)
Definition shape_mismatch (h : Heap) (f : Factor.t) (b : ndarray) : Prop :=
  length (shape b) ≠ length (Factor._rvs f)
  ∨ ∃ i d r, shape b !! i = Some d ∧ Factor._rvs f !! i = Some r
             ∧ Z.of_nat d ≠ RV.n_opts (the_rv h r).

Definition with_belief (f : Factor.t) (b : ndarray) : Factor.t :=
  Factor.mk (Factor.name f) (Factor.debug f) (Factor._rvs f) (Some b)
            (Factor._outgoing f).

(** The leaves of [_bf_bj_recurse], in the order the recursion visits them. *)
Fixpoint enum_assignments (h : Heap) (assigned : assignment) (todo : list nat)
  : list assignment :=
  match todo with
  | [] => [assigned]
  | r :: todo' =>
      let rv := the_rv h r in
      val ← py_range (RV.n_opts rv);
      enum_assignments h (<[RV.name rv := VInt val]> assigned) todo'
  end.

Definition full_assignments (h : Heap) (g : Graph.t) : list assignment :=
  enum_assignments h ∅ (Graph._rvs g).*2.

(** The score [joint] gives an assignment (0.0 stands in when it raises). *)
Definition joint_score (h : Heap) (g : Graph.t) (a : assignment) : float :=
  match Graph_joint h g a with
  | Ok r => r
  | Raise _ => 0%float
  end.

(** [a], at position [i] of [l], scores [r]; nothing in [l] scores strictly
    more, and nothing before position [i] scores as much. *)
Definition is_first_max (sc : assignment → float) (l : list assignment) (i : nat)
    (a : assignment) (r : float) : Prop :=
  l !! i = Some a ∧ sc a = r
  ∧ (∀ a', a' ∈ l → (r <? sc a')%float = false)
  ∧ (∀ j a', (j < i)%nat → l !! j = Some a' → (r <=? sc a')%float = false).

(** The state of [best_a, best_r] after the leaves [l] have been visited. *)
Definition running_best (sc : assignment → float) (l : list assignment)
    (cur : best) : Prop :=
  match cur with
  | (Some a, r) => (∃ i, is_first_max sc l i a r) ∧ (0 <? r)%float = true
  | (None, r) => r = 0%float ∧ ∀ a', a' ∈ l → (0 <? sc a')%float = false
  end.

(** What a recursive call hands back for the leaves [l] below it: the
    single leaf with its score, or a running best over [l]. *)
Definition block_result (sc : assignment → float) (l : list assignment)
    (cand : best) : Prop :=
  match cand with
  | (Some a, r) => (∃ i, is_first_max sc l i a r) ∧ (l = [a] ∨ (0 <? r)%float = true)
  | (None, r) => r = 0%float ∧ ∀ a', a' ∈ l → (0 <? sc a')%float = false
  end.

(** A full assignment of integer values: an index for every RV of the
    graph, under the RV's name, and nothing else. *)
Definition graph_rv_names (h : Heap) (g : Graph.t) : list string :=
  (λ r, RV.name (the_rv h r)) <$> (Graph._rvs g).*2.

Definition full_int_assignment (h : Heap) (g : Graph.t) (a : assignment) : Prop :=
  (∀ k, k ∉ graph_rv_names h g → a !! k = None)
  ∧ ∀ r, r ∈ (Graph._rvs g).*2 →
      ∃ z, a !! RV.name (the_rv h r) = Some (VInt z) ∧ 0 ≤ z < RV.n_opts (the_rv h r).

(** [if r > best_r: best_r = r; best_a = full_a] *)
Definition keep_better (cur cand : best) : best :=
  if (cur.2 <? cand.2)%float then cand else cur.

(** The messages the attached factors send to an RV, in attachment order. *)
Definition incoming_messages (h : Heap) (self : RV.t) : result (list vec) :=
  comprehension (λ f, Factor_get_message_for (the_factor h f) self) (RV._factors self).

(** The elementwise product of the messages, from the all-ones vector. *)
Definition elementwise_product (n : Z) (ms : list vec) : vec :=
  foldl (zip_with PrimFloat.mul) (replicate (Z.to_nat n) 1%float) ms.

(** ... of all the messages but the one at position [i]. *)
Definition product_of_others (n : Z) (incoming : list vec) (i : nat) : vec :=
  elementwise_product n (delete i incoming).

(** ** The order of binary64 numbers

    [Prim2SF] gives the sign, mantissa and exponent of a float; the key
    below orders all floats but NaN as the comparison primitives do. *)

Definition sf_key (f : spec_float) : option (Z * Z * Z) :=
  match f with
  | S754_nan => None
  | S754_zero _ => Some (0, 0, 0)
  | S754_infinity true => Some (-2, 0, 0)
  | S754_infinity false => Some (2, 0, 0)
  | S754_finite true m e => Some (-1, - e, - Zpos m)
  | S754_finite false m e => Some (1, e, Zpos m)
  end.

Definition key_cmp (a b : Z * Z * Z) : comparison :=
  match a.1.1 ?= b.1.1 with
  | Eq => match a.1.2 ?= b.1.2 with
          | Eq => a.2 ?= b.2
          | c => c
          end
  | c => c
  end.

Definition key_lt (a b : Z * Z * Z) : Prop :=
  a.1.1 < b.1.1 ∨ (a.1.1 = b.1.1 ∧ (a.1.2 < b.1.2 ∨ (a.1.2 = b.1.2 ∧ a.2 < b.2))).

Definition float_key (x : float) : option (Z * Z * Z) := sf_key (Prim2SF x).

(** ** A single RV with one unary factor *)

Definition single_rv_graph : result (Heap * Graph.t) :=
  '(h, r) ← RV_new empty_heap "r" 2 [] DEBUG_DEFAULT;
  '(h, f) ← Factor_new h [r] "" DEBUG_DEFAULT;
  h ← set_belief_at h f (vector [8.0; 2.0]%float);
  g ← Graph_add_rv h (Graph_new DEBUG_DEFAULT) r;
  g ← Graph_add_factor h g f;
  Ok (h, g).

Definition single_heap : Heap :=
  Eval vm_compute in
    match single_rv_graph with Ok (h, _) => h | Raise _ => empty_heap end.
Definition single_graph : Graph.t :=
  Eval vm_compute in
    match single_rv_graph with Ok (_, g) => g | Raise _ => Graph_new true end.

(** ** The message-passing rules as the specification words them

    [Factor.get_message_for], [Factor.recompute_outgoing] and the marginals
    of [Graph.lbp] are compared below with what the specification asks of
    them; these definitions follow the specification, not the source. *)

(** Following the specification's words: the factor's stored outgoing
    message directed at the RV referenced by [r]. *)
Fixpoint position_of (r : nat) (rvs : list nat) : option nat :=
  match rvs with
  | [] => None
  | r' :: rvs' => if bool_decide (r' = r) then Some 0%nat else S <$> position_of r rvs'
  end.

Definition spec_stored_message_for (self : Factor.t) (r : nat) : option vec :=
  i ← position_of r (Factor._rvs self);
  out ← Factor._outgoing self;
  out !! i.

(** Following the specification's words: every entry of the new message is
    within [EPSILON] of the previous one. *)
Definition spec_within_EPSILON (old new : vec) : bool :=
  forallb (λ p, (abs (p.1 - p.2) <=? EPSILON)%float) (zip old new).

(** Following the specification's words: rescale so the entries sum to 1. *)
Definition spec_normalise (v : vec) : vec :=
  let total := foldl PrimFloat.add 0%float v in
  (λ x, (x / total)%float) <$> v.

(** Following the specification's words: the normalised elementwise product
    of all the final incoming messages of an RV. *)
Definition spec_marginal (h : Heap) (self : RV.t) : result vec :=
  ms ← incoming_messages h self;
  Ok (spec_normalise (elementwise_product (RV.n_opts self) ms)).

(** The index tuples of an array of the given shape, in row-major order. *)
Fixpoint indices (s : list nat) : list (list nat) :=
  match s with
  | [] => [[]]
  | d :: s' => i ← seq 0 d; (λ idx, i :: idx) <$> indices s'
  end.

(** Following the specification's words: the sum-product message of a
    factor with belief [b] to its [t]-th RV, from the messages [incoming]
    of its RVs (by position): for every value [v] of that RV, the sum over
    the index tuples with [v] at position [t] of the belief entry times the
    other RVs' messages at their indices. *)
Definition spec_sum_product (b : ndarray) (incoming : list vec) (t : nat) : vec :=
  let entries := zip (indices (shape b)) (data b) in
  let weight (idx : list nat) : float :=
    foldl PrimFloat.mul 1%float
      (omap (λ '(j, i), if bool_decide (j = t) then None
                        else Some (default 1%float (incoming !! j ≫= (.!! i))))
            (imap pair idx)) in
  (λ v, foldl PrimFloat.add 0%float
          (omap (λ '(idx, x), if bool_decide (idx !! t = Some v)
                              then Some (x * weight idx)%float else None) entries))
  <$> seq 0 (default 0%nat (shape b !! t)).

(** ** Concrete graphs used below *)

(** The single RV with no factor registered. *)
Definition factorless_graph : Graph.t :=
  Eval vm_compute in
    match Graph_add_rv single_heap (Graph_new DEBUG_DEFAULT) 0 with
    | Ok g => g
    | Raise _ => Graph_new true
    end.

(** The single RV with a unary factor whose belief is all zero. *)
Definition zero_belief_heap : Heap :=
  Eval vm_compute in
    match set_belief_at single_heap 0 (vector [0; 0]%float) with
    | Ok h => h
    | Raise _ => empty_heap
    end.

(** A factor built with [debug=False] over the single RV. *)
Definition unchecked_factor_heap : result (Heap * nat) :=
  '(h, r) ← RV_new empty_heap "r" 2 [] DEBUG_DEFAULT;
  Factor_new h [r] "" false.

Definition unchecked_heap : Heap :=
  Eval vm_compute in
    match unchecked_factor_heap with Ok (h, _) => h | Raise _ => empty_heap end.

(** A graph without RVs whose only factor, built with [debug=False] over
    no RV, has the rank-0 belief [np.array(0.0)]. *)
Definition no_rv_graph : result (Heap * Graph.t) :=
  '(h, f) ← Factor_new empty_heap [] "" false;
  h ← set_belief_at h f (mk_ndarray [] [0%float]);
  g ← Graph_add_factor h (Graph_new DEBUG_DEFAULT) f;
  Ok (h, g).

Definition no_rv_heap : Heap :=
  Eval vm_compute in
    match no_rv_graph with Ok (h, _) => h | Raise _ => empty_heap end.
Definition no_rv_graph_g : Graph.t :=
  Eval vm_compute in
    match no_rv_graph with Ok (_, g) => g | Raise _ => Graph_new true end.

(** The single RV with a unary factor whose two entries tie. *)
Definition tied_belief_heap : Heap :=
  Eval vm_compute in
    match set_belief_at single_heap 0 (vector [0.5; 0.5]%float) with
    | Ok h => h
    | Raise _ => empty_heap
    end.

(** The single RV after [init_lbp], and with a first message that has
    drifted by 5e-05. *)
Definition ready_rv : RV.t :=
  Eval vm_compute in
    match RV_init_lbp (the_rv single_heap 0) with
    | Ok rv => rv
    | Raise _ => the_rv single_heap 0
    end.

Definition drifted_rv : RV.t :=
  RV_set_outgoing ready_rv (Some [[1.00005; 1]%float]).

(** The unary factor after [init_lbp], and holding the message its belief
    calls for. *)
Definition ready_factor : Factor.t :=
  Eval vm_compute in
    match Factor_init_lbp single_heap (the_factor single_heap 0) with
    | Ok f => f
    | Raise _ => the_factor single_heap 0
    end.

Definition informed_factor : Factor.t :=
  Factor_set_outgoing ready_factor (Some [[0.8; 0.2]%float]).

(** The heap [Graph.lbp] leaves on the single-RV graph. *)
Definition single_heap_after_lbp : Heap :=
  Eval vm_compute in
    match Graph_lbp single_heap single_graph with
    | Ok (h, _, _) => h
    | Raise _ => empty_heap
    end.

(** Evaluates the list of leaves of a concrete graph. *)
Ltac compute_leaves h g :=
  let l := eval vm_compute in (full_assignments h g) in
  change (full_assignments h g) with l.

(** ** [RV.recompute_outgoing] on factors that send messages *)

(** [RV.recompute_outgoing] as [RV_recompute_outgoing], with the call
    [f.get_message_for(self)] left to the objects held in [_factors]:
    Python dispatches it on the object, and [get_message_for f rv] is what
    the object referenced by [f] answers.  [RV_recompute_outgoing h] is
    this function on the [Factor] objects of the heap [h]. *)
Definition RV_recompute_outgoing_with (get_message_for : nat → RV.t → result vec)
    (self : RV.t) : result (RV.t * bool) :=
  _ ← when (RV.debug self) (py_assert (bool_decide (is_Some (RV._outgoing self))));
  old_outgoing ← match RV._outgoing self with
                 | Some o => Ok o
                 | None => Raise TypeError
                 end;
  total ← np_ones (RV.n_opts self);
  incoming ← comprehension (λ f,
                 m ← get_message_for f self;
                 _ ← when (RV.debug self)
                       (py_assert (bool_decide (Z.of_nat (length m) = RV.n_opts self)));
                 Ok m) (RV._factors self);
  '(outgoing, convg) ← rv_send (RV.n_opts self) total incoming old_outgoing
                          (seq 0 (length (RV._factors self))) old_outgoing true;
  Ok (RV_set_outgoing self (Some outgoing), convg).

(** [np.ones(n) / m] for a message [m] of length [n]. *)
Definition reciprocal (m : vec) : vec := (λ y, (1 / y)%float) <$> m.

(** An RV of cardinality 2 attached to two factors, after [init_lbp]. *)
Definition two_factor_rv_heap : result (Heap * nat) :=
  '(h, r) ← RV_new empty_heap "r" 2 [] DEBUG_DEFAULT;
  '(h, _) ← Factor_new h [r] "" DEBUG_DEFAULT;
  '(h, _) ← Factor_new h [r] "" DEBUG_DEFAULT;
  h ← node_init_lbp h (RVNode r);
  Ok (h, r).

Definition two_factor_rv : RV.t :=
  Eval vm_compute in
    match two_factor_rv_heap with
    | Ok (h, r) => the_rv h r
    | Raise _ => the_rv empty_heap 0
    end.

(** Its two factors as objects whose [get_message_for] answers [2, 4] and
    [4, 5]. *)
Definition sending (f : nat) (rv : RV.t) : result vec :=
  match f with
  | O => Ok [2; 4]%float
  | S _ => Ok [4; 5]%float
  end.

(** ** Vocabulary of the further properties *)

(** The invariant of [Graph._rvs]: a dict holds a key once, and [add_rv]
    stores every RV under its own name. *)
Definition keyed_by_name (h : Heap) (g : Graph.t) : Prop :=
  NoDup (Graph._rvs g).*1
  ∧ ∀ k r, (k, r) ∈ Graph._rvs g → k = RV.name (the_rv h r).

(** An RV with labels. *)
Definition labelled_rv_heap : Heap :=
  Eval vm_compute in
    match RV_new empty_heap "weather" 2 ["rain"; "sun"] DEBUG_DEFAULT with
    | Ok (h, _) => h
    | Raise _ => empty_heap
    end.

(** A graph whose second RV has no value to take. *)
Definition empty_domain_graph : result (Heap * Graph.t) :=
  '(h, a) ← RV_new empty_heap "a" 2 [] DEBUG_DEFAULT;
  '(h, b) ← RV_new h "b" 0 [] DEBUG_DEFAULT;
  g ← Graph_add_rv h (Graph_new DEBUG_DEFAULT) a;
  g ← Graph_add_rv h g b;
  Ok (h, g).

Definition empty_domain_heap : Heap :=
  Eval vm_compute in
    match empty_domain_graph with Ok (h, _) => h | Raise _ => empty_heap end.
Definition empty_domain_graph_g : Graph.t :=
  Eval vm_compute in
    match empty_domain_graph with Ok (_, g) => g | Raise _ => Graph_new true end.

(** What [init_lbp] leaves: one all-ones message per edge. *)
Definition RV_uniform (rv : RV.t) : RV.t :=
  RV_set_outgoing rv
    (Some (replicate (length (RV._factors rv)) (replicate (Z.to_nat (RV.n_opts rv)) 1%float))).

Definition Factor_uniform (h : Heap) (fac : Factor.t) : Factor.t :=
  Factor_set_outgoing fac
    (Some ((λ r, replicate (Z.to_nat (RV.n_opts (the_rv h r))) 1%float) <$> Factor._rvs fac)).

#[global] Instance node_eq_dec : EqDecision node.
Proof. solve_decision. Defined.

(** [h'] is [h] with uniform messages on the objects of [nodes], and on
    them only. *)
Definition messages_initialised (h : Heap) (nodes : list node) (h' : Heap) : Prop :=
  (∀ r, rv_objs h' !! r
        = (if bool_decide (RVNode r ∈ nodes) then RV_uniform else id) <$> rv_objs h !! r)
  ∧ (∀ f, factor_objs h' !! f
          = (if bool_decide (FactorNode f ∈ nodes) then Factor_uniform h else id)
              <$> factor_objs h !! f).

(** The nodes of a graph, as [_sorted_nodes] lists them before sorting. *)
Definition graph_nodes (g : Graph.t) : list node :=
  (RVNode <$> (Graph._rvs g).*2) ++ (FactorNode <$> Graph._factors g).

(** The references of [nodes] denote objects of the heap, and no RV among
    them or attached to a factor among them has a negative [n_opts]. *)
Definition node_runnable (h : Heap) (n : node) : Prop :=
  match n with
  | RVNode r => (r < length (rv_objs h))%nat ∧ 0 ≤ RV.n_opts (the_rv h r)
  | FactorNode f =>
      (f < length (factor_objs h))%nat
      ∧ Forall (λ r, 0 ≤ RV.n_opts (the_rv h r)) (Factor._rvs (the_factor h f))
  end.

Definition lbp_runnable (h : Heap) (g : Graph.t) : Prop :=
  Forall (node_runnable h) (graph_nodes g).

(** Factors and RVs refer to each other: [r] is among the RVs of [f]
    exactly when [f] is among the factors of [r], and only objects of the
    heap are referred to. *)
Definition heap_linked (h : Heap) : Prop :=
  (∀ f r, (f < length (factor_objs h))%nat → r ∈ Factor._rvs (the_factor h f) →
     (r < length (rv_objs h))%nat ∧ f ∈ RV._factors (the_rv h r))
  ∧ (∀ r f, (r < length (rv_objs h))%nat → f ∈ RV._factors (the_rv h r) →
       (f < length (factor_objs h))%nat ∧ r ∈ Factor._rvs (the_factor h f)).

(** An RV with another list of factors. *)
Definition RV_with_factors (rv : RV.t) (fs : list nat) : RV.t :=
  RV.mk (RV.name rv) (RV.n_opts rv) (RV.labels rv) (RV.debug rv) fs (RV._outgoing rv).

(** [h'] is [h] after the factor [f] was attached to the RVs [rs], in
    this order: [f] has them appended to its RVs and its belief cleared,
    each of them has [f] appended to its factors once per occurrence, and
    nothing else differs. *)
Definition attached (h : Heap) (f : nat) (rs : list nat) (h' : Heap) : Prop :=
  length (rv_objs h') = length (rv_objs h)
  ∧ length (factor_objs h') = length (factor_objs h)
  ∧ the_factor h' f
    = Factor.mk (Factor.name (the_factor h f)) (Factor.debug (the_factor h f))
        (Factor._rvs (the_factor h f) ++ rs)
        (match rs with [] => Factor._belief (the_factor h f) | _ :: _ => None end)
        (Factor._outgoing (the_factor h f))
  ∧ (∀ f', f' ≠ f → the_factor h' f' = the_factor h f')
  ∧ ∀ r, the_rv h' r
         = RV_with_factors (the_rv h r)
             (RV._factors (the_rv h r) ++ ((λ _, f) <$> filter (λ r', r' = r) rs)).

(** The position in [data] of the entry at the indices [idx] of an array
    of shape [s], in row-major order. *)
Fixpoint flat_index (s : list nat) (idx : list nat) : nat :=
  match s, idx with
  | _ :: ds, i :: idx' => i * size_of ds + flat_index ds idx'
  | _, _ => 0
  end.

(** * Theorems *)

Example pyfac_test_graph_built : pyfac_test_graph = Ok (pyfac_heap, pyfac_graph).
Proof. reflexivity. Qed.

Example pyfac_joint :
  Graph_joint pyfac_heap pyfac_graph {[ "a" := VInt 0; "b" := VInt 1 ]}
  = Ok (0.7 * 0.8)%float.
Proof. vm_compute. reflexivity. Qed.

Example pyfac_best_joint :
  Graph_bf_best_joint pyfac_heap pyfac_graph
  = Ok (Some {[ "a" := VInt 2; "b" := VInt 1 ]}, (0.7 * 0.9)%float).
Proof. vm_compute. reflexivity. Qed.

Example concrete_graphs_built :
  Graph_add_rv single_heap (Graph_new DEBUG_DEFAULT) 0 = Ok factorless_graph
  ∧ set_belief_at single_heap 0 (vector [0; 0]%float) = Ok zero_belief_heap
  ∧ unchecked_factor_heap = Ok (unchecked_heap, 0%nat)
  ∧ no_rv_graph = Ok (no_rv_heap, no_rv_graph_g)
  ∧ RV_init_lbp (the_rv single_heap 0) = Ok ready_rv
  ∧ Factor_init_lbp single_heap (the_factor single_heap 0) = Ok ready_factor.
Proof. split_and!; reflexivity. Qed.

(** ** The result monad *)

Lemma bind_Ok {A B} (m : result A) (k : A → result B) (b : B) :
  m ≫= k = Ok b ↔ ∃ a, m = Ok a ∧ k a = Ok b.
Proof.
  destruct m as [a|e]; simpl; split.
  - eauto.
  - by intros (a' & [= ->] & ?).
  - done.
  - by intros (a' & ? & ?).
Qed.

Lemma bind_Ok_l {A B} (m : result A) (k : A → result B) (a : A) :
  m = Ok a → m ≫= k = k a.
Proof. by intros ->. Qed.

Lemma bind_Raise_l {A B} (m : result A) (k : A → result B) (e : exn) :
  m = Raise e → m ≫= k = Raise e.
Proof. by intros ->. Qed.

Lemma py_assert_true b : py_assert b = Ok tt ↔ b = true.
Proof. destruct b; simpl; split; congruence. Qed.

Lemma py_assert_asserts b : asserts (py_assert b).
Proof. destruct b; [by left | by right]. Qed.

Lemma for_each_Ok {A} (body : A → result unit) (l : list A) :
  for_each body l = Ok tt ↔ Forall (λ a, body a = Ok tt) l.
Proof.
  induction l as [|a l IH]; simpl.
  - split; [constructor | done].
  - rewrite Forall_cons, <- IH. destruct (body a) as [[]|e]; simpl.
    + tauto.
    + split; [done | by intros [? _]].
Qed.

Lemma for_each_asserts {A} (body : A → result unit) (l : list A) :
  Forall (λ a, asserts (body a)) l → asserts (for_each body l).
Proof.
  induction 1 as [|a l [Ha|Ha] _ IH]; simpl.
  - by left.
  - by rewrite Ha.
  - rewrite Ha. by right.
Qed.

Lemma asserts_not_Ok (m : result unit) : asserts m → m ≠ Ok tt → m = Raise AssertionError.
Proof. by intros [?|?]. Qed.

Lemma for_each_ext {A} (body1 body2 : A → result unit) (l : list A) :
  Forall (λ a, body1 a = body2 a) l → for_each body1 l = for_each body2 l.
Proof. induction 1 as [|a l Ha _ IH]; simpl; [done | by rewrite Ha, IH]. Qed.

(** ** [Factor.set_belief] *)

Lemma shape_matches_iff h f b : shape_matches h f b ↔ ¬ shape_mismatch h f b.
Proof.
  unfold shape_matches, shape_mismatch. split.
  - intros HF [Hlen | (i & d & r & Hd & Hr & Hne)].
    + by apply Forall2_length in HF.
    + eapply Forall2_lookup_lr in HF; eauto.
  - intros Hno. apply Forall2_same_length_lookup_2.
    + destruct (decide (length (shape b) = length (Factor._rvs f))); [done | tauto].
    + intros i d r Hd Hr.
      destruct (decide (Z.of_nat d = RV.n_opts (the_rv h r))); [done |].
      exfalso. apply Hno. right. eauto 10.
Qed.

(** The per-axis checks of [set_belief], once the ranks agree. *)
Lemma set_belief_axes_Ok h f b :
  length (shape b) = length (Factor._rvs f) →
  for_each (λ '(i, d),
      match Factor._rvs f !! i with
      | None => Raise IndexError
      | Some r => py_assert (bool_decide (Z.of_nat d = RV.n_opts (the_rv h r)))
      end) (imap pair (shape b)) = Ok tt
  ↔ shape_matches h f b.
Proof.
  intros Hlen. rewrite for_each_Ok, Forall_lookup. unfold shape_matches. split.
  - intros Hall. apply Forall2_same_length_lookup_2; [done |].
    intros i d r Hd Hr. specialize (Hall i (i, d)).
    rewrite list_lookup_imap, Hd in Hall. specialize (Hall eq_refl). simpl in Hall.
    rewrite Hr, py_assert_true, bool_decide_eq_true in Hall. done.
  - intros HF i [j d]. rewrite list_lookup_imap.
    destruct (shape b !! i) as [d'|] eqn:Hd; simpl; [|done]. intros [= <- <-].
    destruct (Forall2_lookup_l _ _ _ _ _ HF Hd) as (r & Hr & Heq).
    rewrite Hr, py_assert_true, bool_decide_eq_true. done.
Qed.

Lemma set_belief_axes_asserts h f b :
  length (shape b) = length (Factor._rvs f) →
  asserts (for_each (λ '(i, d),
      match Factor._rvs f !! i with
      | None => Raise IndexError
      | Some r => py_assert (bool_decide (Z.of_nat d = RV.n_opts (the_rv h r)))
      end) (imap pair (shape b))).
Proof.
  intros Hlen. apply for_each_asserts, Forall_lookup. intros i [j d].
  rewrite list_lookup_imap.
  destruct (shape b !! i) as [d'|] eqn:Hd; simpl; [|done]. intros [= <- <-].
  destruct (lookup_lt_is_Some_2 (Factor._rvs f) i) as [r ->].
  - rewrite <- Hlen. by eapply lookup_lt_Some.
  - apply py_assert_asserts.
Qed.

Lemma Factor_set_belief_debug h f b :
  Factor.debug f = true →
  Factor_set_belief h f b
  = if decide (shape_matches h f b) then Ok (with_belief f b) else Raise AssertionError.
Proof.
  intros Hdebug. unfold Factor_set_belief. rewrite Hdebug. simpl.
  destruct (decide (length (shape b) = length (Factor._rvs f))) as [Hlen|Hlen].
  - rewrite bool_decide_eq_true_2 by done. simpl.
    pose proof (set_belief_axes_Ok h f b Hlen) as HOk.
    pose proof (set_belief_axes_asserts h f b Hlen) as Has.
    destruct (decide (shape_matches h f b)) as [Hm|Hm].
    + apply HOk in Hm. rewrite Hm. simpl. unfold with_belief. by rewrite Hdebug.
    + rewrite (asserts_not_Ok _ Has) by (intros Hx; apply Hm, HOk, Hx). done.
  - rewrite bool_decide_eq_false_2 by done. simpl.
    rewrite decide_False; [done |]. intros HF. by apply Forall2_length in HF.
Qed.

(** C7, as amended: for a factor with its debug checks on (the default),
    [set_belief(b)] raises exactly when [b]'s rank differs from the number
    of attached RVs or some axis length differs from the cardinality of the
    RV at that position, and otherwise succeeds and stores [b] as the
    belief. *)
Theorem set_belief_checks_shape (h : Heap) (f : Factor.t) (b : ndarray) :
  Factor.debug f = true →
  (shape_mismatch h f b → Factor_set_belief h f b = Raise AssertionError)
  ∧ (¬ shape_mismatch h f b →
       Factor_set_belief h f b = Ok (with_belief f b)
       ∧ Factor._belief (with_belief f b) = Some b).
Proof.
  intros Hdebug. rewrite (Factor_set_belief_debug h f b Hdebug). split.
  - intros Hmis. rewrite decide_False; [done |]. by intros Hm%shape_matches_iff.
  - intros Hok. rewrite decide_True; [done |]. by rewrite shape_matches_iff.
Qed.

(** ** [Factor.eval] reads only the entries of the attached RVs *)

Lemma restrict_lookup h f x r :
  r ∈ Factor._rvs f →
  restrict h f x !! RV.name (the_rv h r) = x !! RV.name (the_rv h r).
Proof.
  intros Hr. unfold restrict.
  assert (RV.name (the_rv h r) ∈ factor_names h f) as Hin.
  { unfold factor_names. apply list_elem_of_fmap. eauto. }
  destruct (x !! RV.name (the_rv h r)) as [v|] eqn:Hx.
  - by apply map_lookup_filter_Some.
  - apply map_lookup_filter_None. by left.
Qed.

Lemma eval_index_restrict h f x rvs ret :
  Forall (λ r, r ∈ Factor._rvs f) rvs →
  eval_index h (restrict h f x) rvs ret = eval_index h x rvs ret.
Proof.
  intros Hall. revert ret.
  induction Hall as [|r rvs Hr _ IH]; intros ret; simpl; [done |].
  rewrite (restrict_lookup h f x r Hr).
  destruct (x !! RV.name (the_rv h r)) as [l|]; simpl; [|done].
  destruct (RV_get_int_label (the_rv h r) l) as [i|]; simpl; [|done].
  destruct (getitem ret i) as [ret'|]; simpl; [|done].
  apply IH.
Qed.

Lemma Factor_eval_restrict h f x :
  Factor_eval h f (restrict h f x) = Factor_eval h f x.
Proof.
  unfold Factor_eval.
  rewrite (for_each_ext (λ r, check_assigned (restrict h f x) (the_rv h r))
                        (λ r, check_assigned x (the_rv h r))).
  - rewrite eval_index_restrict; [done |]. by apply Forall_forall.
  - apply Forall_forall. intros r Hr. unfold check_assigned.
    by rewrite restrict_lookup.
Qed.

(** ** [Graph.joint] *)

Lemma has_label_in_domain rv v : in_domain rv v → RV_has_label rv v = Ok true.
Proof.
  unfold RV_has_label. destruct v as [z|s]; simpl; intros Hv.
  - assert ((z <? RV.n_opts rv) = true) as -> by (apply Z.ltb_lt; lia).
    case_bool_decide; [|done]. by destruct (RV.debug rv).
  - rewrite bool_decide_eq_false_2.
    + by rewrite bool_decide_eq_true_2.
    + intros Hlen. apply nil_length_inv in Hlen. rewrite Hlen in Hv.
      by apply not_elem_of_nil in Hv.
Qed.

Lemma dict_get_Some {V} (d : list (string * V)) k v :
  dict_get d k = Some v → (k, v) ∈ d.
Proof.
  induction d as [|[k' v'] d IH]; simpl; [done |].
  case_bool_decide as Hk.
  - intros [= ->]. subst. left.
  - intros Hd. right. by apply IH.
Qed.

(** Under the debug checks a valid assignment passes validation. *)
Lemma joint_valid h g x :
  valid_assignment h g x →
  Graph_joint h g x = joint_loop h x (Graph._factors g) 1%float.
Proof.
  intros (Hcov & Hsize & Hkeys). unfold Graph_joint.
  destruct (Graph.debug g); simpl; [|done].
  rewrite bool_decide_eq_true_2 by done. simpl.
  assert (for_each (check_key h g) (map_to_list x) = Ok tt) as ->.
  { apply for_each_Ok, Forall_forall. intros [name label] Hin.
    apply elem_of_map_to_list in Hin. unfold check_key. simpl.
    destruct (Hkeys name) as [r Hr]; [by eauto |]. rewrite Hr.
    destruct (Hcov name r (dict_get_Some _ _ _ Hr)) as (v & Hv & Hdom).
    assert (v = label) as -> by congruence.
    by rewrite (has_label_in_domain _ _ Hdom). }
  simpl.
  assert (for_each (check_rv h x) (Graph._rvs g) = Ok tt) as ->.
  { apply for_each_Ok, Forall_forall. intros [name r] Hin. unfold check_rv. simpl.
    destruct (Hcov name r Hin) as (v & -> & Hdom).
    by rewrite (has_label_in_domain _ _ Hdom). }
  done.
Qed.

Lemma py_imul_number prod pv v :
  as_number pv = Some v → py_imul prod pv = Ok (prod * v)%float.
Proof.
  destruct pv as [|y|[[|d ds] [|y [|y' l]]]]; simpl; try done; by intros [= ->].
Qed.

Lemma joint_loop_product h x fs vs prod :
  Forall2 (λ f v, ∃ pv, eval_restricted h x f = Ok pv ∧ as_number pv = Some v) fs vs →
  joint_loop h x fs prod = Ok (fold_left PrimFloat.mul vs prod).
Proof.
  intros HF. revert prod.
  induction HF as [|f v fs vs (pv & Hev & Hnum) _ IH]; intros prod; simpl; [done |].
  unfold eval_restricted in Hev. rewrite Factor_eval_restrict in Hev.
  rewrite Hev. simpl. rewrite (py_imul_number _ _ _ Hnum). simpl. apply IH.
Qed.

(** C1, as amended: for every graph and every assignment that covers
    exactly the graph's RVs with values in their domains (every RV has an
    entry in its domain, and there are no other entries), and on which
    every factor's [eval] at the assignment restricted to its attached RVs
    returns a number, [joint] returns the product, over the factors in
    order and starting from 1.0, of these numbers; with no factors the
    result is 1.0. *)
Theorem joint_is_product_of_evals (h : Heap) (g : Graph.t) (x : assignment)
    (vs : list float) :
  valid_assignment h g x →
  Forall2 (λ f v, ∃ pv, eval_restricted h x f = Ok pv ∧ as_number pv = Some v)
          (Graph._factors g) vs →
  Graph_joint h g x = Ok (fold_left PrimFloat.mul vs 1%float)
  ∧ (Graph._factors g = [] → Graph_joint h g x = Ok 1%float).
Proof.
  intros Hvalid HF. rewrite (joint_valid h g x Hvalid). split.
  - by apply joint_loop_product.
  - by intros ->.
Qed.

Example single_rv_graph_built : single_rv_graph = Ok (single_heap, single_graph).
Proof. reflexivity. Qed.

(** ** Integer labels and negative indices *)

Lemma has_label_int rv z : RV_has_label rv (VInt z) = Ok (z <? RV.n_opts rv).
Proof.
  unfold RV_has_label. case_bool_decide; [|done]. by destruct (RV.debug rv).
Qed.

Lemma has_label_raises rv v e : RV_has_label rv v = Raise e → e = AssertionError.
Proof.
  unfold RV_has_label. case_bool_decide.
  - destruct (RV.debug rv), v; simpl; congruence.
  - destruct v; congruence.
Qed.

Lemma has_label_check_asserts rv v :
  asserts (ok ← RV_has_label rv v; py_assert ok).
Proof.
  destruct (RV_has_label rv v) as [ok|e] eqn:Hl; simpl.
  - apply py_assert_asserts.
  - right. by rewrite (has_label_raises _ _ _ Hl).
Qed.

Lemma getitem_wrap a d ds z :
  shape a = d :: ds → - Z.of_nat d ≤ z < 0 →
  getitem (PyArray a) z = getitem (PyArray a) (z + Z.of_nat d).
Proof.
  intros Hs Hz. unfold getitem. rewrite Hs.
  assert ((z <? 0) = true) as H1 by (apply Z.ltb_lt; lia).
  assert ((z + Z.of_nat d <? 0) = false) as H2 by (apply Z.ltb_ge; lia).
  rewrite H1, H2. simpl. by rewrite H2.
Qed.

Lemma getitem_array_shape a d ds i ret :
  shape a = d :: ds → getitem (PyArray a) i = Ok ret →
  (ds = [] ∧ ∃ v, ret = PyFloat v) ∨ (∃ a', ret = PyArray a' ∧ shape a' = ds ∧ ds ≠ []).
Proof.
  intros Hs. unfold getitem. rewrite Hs.
  destruct (_ || _); [done |]. destruct ds as [|d' ds].
  - destruct (take _ _) as [|v l]; [done |]. intros [= <-]. left. eauto.
  - intros [= <-]. right. eexists. by split_and!.
Qed.


Lemma eval_index_cons h x r rvs ret :
  eval_index h x (r :: rvs) ret
  = (i ← label_index h x r; ret' ← getitem ret i; eval_index h x rvs ret').
Proof. unfold label_index. simpl. by destruct (x !! RV.name (the_rv h r)). Qed.

Section negative_index.
Context (h : Heap) (x : assignment) (name : string) (z n : Z).
Context (Hx : x !! name = Some (VInt z)) (Hz : - n ≤ z < 0).

Local Abbreviation x' := (<[name := VInt (z + n)]> x).

Lemma wrap_check_assigned rv :
  (RV.name rv = name → RV.n_opts rv = n) →
  check_assigned x rv = check_assigned x' rv.
Proof using Hx Hz.
  intros Hn. unfold check_assigned.
  destruct (decide (RV.name rv = name)) as [Heq|Hne].
  - rewrite Heq, Hx, lookup_insert_eq, !has_label_int, (Hn Heq).
    assert ((z <? n) = true) as -> by (apply Z.ltb_lt; lia).
    assert ((z + n <? n) = true) as -> by (apply Z.ltb_lt; lia). done.
  - by rewrite lookup_insert_ne.
Qed.

Lemma wrap_eval_index rvs ret :
  Forall (λ r, RV.name (the_rv h r) = name → RV.n_opts (the_rv h r) = n) rvs →
  (∀ a, ret = PyArray a →
        Forall2 (λ d r, Z.of_nat d = RV.n_opts (the_rv h r)) (shape a) rvs) →
  eval_index h x rvs ret = eval_index h x' rvs ret.
Proof using Hx Hz.
  intros Hall. revert ret.
  induction Hall as [|r rvs Hr _ IH]; intros ret Hshape; [done |].
  rewrite !eval_index_cons.
  destruct (decide (RV.name (the_rv h r) = name)) as [Heq|Hne].
  - unfold label_index. rewrite Heq, Hx, lookup_insert_eq. simpl.
    destruct ret as [| v | a]; [done | done |].
    specialize (Hshape a eq_refl).
    destruct (shape a) as [|d ds] eqn:Hs; [by inversion Hshape |].
    apply Forall2_cons in Hshape as [Hd Hds].
    rewrite (getitem_wrap a d ds z Hs) by (rewrite Hd, (Hr Heq); lia).
    rewrite Hd, (Hr Heq).
    destruct (getitem (PyArray a) (z + n)) as [ret'|e] eqn:Hg; simpl; [|done].
    apply IH. intros a' ->.
    destruct (getitem_array_shape a d ds _ _ Hs Hg)
      as [(_ & v & [=]) | (a'' & [= <-] & -> & _)]. done.
  - assert (label_index h x' r = label_index h x r) as ->.
    { unfold label_index. by rewrite lookup_insert_ne. }
    destruct (label_index h x r) as [i|e]; simpl; [|done].
    destruct (getitem ret i) as [ret'|e] eqn:Hg; simpl; [|done].
    apply IH. intros a' ->.
    destruct ret as [| v | a]; [done | done |].
    specialize (Hshape a eq_refl).
    destruct (shape a) as [|d ds] eqn:Hs; [by inversion Hshape |].
    apply Forall2_cons in Hshape as [Hd Hds].
    destruct (getitem_array_shape a d ds _ _ Hs Hg)
      as [(_ & v & [=]) | (a'' & [= <-] & -> & _)]. done.
Qed.

Lemma wrap_Factor_eval f :
  (∀ r, r ∈ Factor._rvs f → RV.name (the_rv h r) = name → RV.n_opts (the_rv h r) = n) →
  belief_fits h f →
  Factor_eval h f x = Factor_eval h f x'.
Proof using Hx Hz.
  intros Hn Hfits. unfold Factor_eval.
  rewrite (for_each_ext (λ r, check_assigned x (the_rv h r))
                        (λ r, check_assigned x' (the_rv h r))).
  - rewrite (wrap_eval_index (Factor._rvs f)); [done | by apply Forall_forall |].
    intros a Ha. apply Hfits. by destruct (Factor._belief f) as [b|]; simplify_eq.
  - apply Forall_forall. intros r Hr. apply wrap_check_assigned. by apply Hn.
Qed.
End negative_index.

Lemma asserts_eq (m1 m2 : result unit) :
  asserts m1 → asserts m2 → (m1 = Ok tt ↔ m2 = Ok tt) → m1 = m2.
Proof.
  intros [->| ->] [->| ->] Hiff; try done.
  - by destruct Hiff as [-> _].
  - by destruct Hiff as [_ ->].
Qed.

Section negative_index_joint.
Context (h : Heap) (g : Graph.t) (x : assignment) (name : string) (z n : Z).
Context (Hx : x !! name = Some (VInt z)) (Hz : - n ≤ z < 0).
Context (Hcard : cardinality_of h g name n).
Context (Hfits : ∀ f, f ∈ Graph._factors g → belief_fits h (the_factor h f)).

Local Abbreviation x' := (<[name := VInt (z + n)]> x).

Lemma check_key_asserts item : asserts (check_key h g item).
Proof.
  unfold check_key. destruct (dict_get _ _); [|by right].
  apply has_label_check_asserts.
Qed.

Lemma check_key_name :
  check_key h g (name, VInt z) = check_key h g (name, VInt (z + n)).
Proof using Hz Hcard.
  unfold check_key. simpl.
  destruct (dict_get (Graph._rvs g) name) as [r|] eqn:Hr; [|done].
  rewrite !has_label_int.
  rewrite (proj1 Hcard r (dict_get_Some _ _ _ Hr)).
  assert ((z <? n) = true) as -> by (apply Z.ltb_lt; lia).
  assert ((z + n <? n) = true) as -> by (apply Z.ltb_lt; lia). done.
Qed.

Lemma wrap_check_keys :
  for_each (check_key h g) (map_to_list x) = for_each (check_key h g) (map_to_list x').
Proof using Hx Hz Hcard.
  apply asserts_eq.
  - apply for_each_asserts, Forall_forall. intros; apply check_key_asserts.
  - apply for_each_asserts, Forall_forall. intros; apply check_key_asserts.
  - rewrite !for_each_Ok, !Forall_forall. split.
    + intros Hall [k l] Hin. apply elem_of_map_to_list in Hin.
      destruct (decide (name = k)) as [<-|Hne].
      * rewrite lookup_insert_eq in Hin. injection Hin as <-.
        rewrite <- check_key_name. apply Hall. by apply elem_of_map_to_list.
      * rewrite lookup_insert_ne in Hin by done.
        apply Hall. by apply elem_of_map_to_list.
    + intros Hall [k l] Hin. apply elem_of_map_to_list in Hin.
      destruct (decide (name = k)) as [<-|Hne].
      * assert (l = VInt z) as -> by congruence.
        rewrite check_key_name. apply Hall, elem_of_map_to_list.
        by rewrite lookup_insert_eq.
      * apply Hall, elem_of_map_to_list.
        by rewrite lookup_insert_ne.
Qed.

Lemma wrap_check_rvs :
  for_each (check_rv h x) (Graph._rvs g) = for_each (check_rv h x') (Graph._rvs g).
Proof using Hx Hz Hcard.
  apply for_each_ext, Forall_forall. intros [k r] Hin. unfold check_rv. simpl.
  destruct (decide (name = k)) as [<-|Hne].
  - rewrite Hx, lookup_insert_eq, !has_label_int, (proj1 Hcard r Hin).
    assert ((z <? n) = true) as -> by (apply Z.ltb_lt; lia).
    assert ((z + n <? n) = true) as -> by (apply Z.ltb_lt; lia). done.
  - by rewrite lookup_insert_ne.
Qed.

Lemma wrap_joint_loop fs prod :
  (∀ f, f ∈ fs → f ∈ Graph._factors g) →
  joint_loop h x fs prod = joint_loop h x' fs prod.
Proof using Hx Hz Hcard Hfits.
  revert prod. induction fs as [|f fs IH]; intros prod Hsub; simpl; [done |].
  rewrite <- (wrap_Factor_eval h x name z n Hx Hz).
  - destruct (Factor_eval h (the_factor h f) x) as [v|e]; simpl; [|done].
    destruct (py_imul prod v) as [prod'|e]; simpl; [|done].
    apply IH. intros f' Hf'. apply Hsub. by right.
  - intros r Hr. apply (proj2 Hcard f r); [|done]. apply Hsub. left.
  - apply Hfits, Hsub. left.
Qed.

Lemma wrap_Graph_joint : Graph_joint h g x = Graph_joint h g x'.
Proof using Hx Hz Hcard Hfits.
  unfold Graph_joint. destruct (Graph.debug g); simpl.
  - assert (size x' = size x) as ->.
    { rewrite map_size_insert_Some; [done | by eauto]. }
    rewrite <- wrap_check_keys, <- wrap_check_rvs.
    rewrite (wrap_joint_loop (Graph._factors g)); done.
  - by apply wrap_joint_loop.
Qed.
End negative_index_joint.


(** ** The order of floats *)

Lemma SFcompare_key a b :
  SFcompare a b = match sf_key a, sf_key b with
                  | Some ka, Some kb => Some (key_cmp ka kb)
                  | _, _ => None
                  end.
Proof.
  destruct a as [[]|[]| |[] ma ea], b as [[]|[]| |[] mb eb]; simpl; try reflexivity;
    unfold key_cmp; simpl; f_equal.
  rewrite Z.compare_opp, (Z.compare_antisym ea eb).
  by destruct (ea ?= eb)%Z.
Qed.

Lemma key_cmp_Lt a b : key_cmp a b = Lt ↔ key_lt a b.
Proof.
  unfold key_cmp, key_lt.
  destruct (Z.compare_spec a.1.1 b.1.1), (Z.compare_spec a.1.2 b.1.2),
    (Z.compare_spec a.2 b.2); split; intros; try lia; try discriminate; try reflexivity.
Qed.

Lemma key_cmp_Eq a b : key_cmp a b = Eq ↔ a = b.
Proof.
  unfold key_cmp. destruct a as [[a1 a2] a3], b as [[b1 b2] b3]; simpl.
  destruct (Z.compare_spec a1 b1), (Z.compare_spec a2 b2),
    (Z.compare_spec a3 b3); split; intros Heq; try discriminate; try reflexivity;
    try (injection Heq; lia); subst; reflexivity.
Qed.

Lemma key_cmp_Gt a b : key_cmp a b = Gt ↔ key_lt b a.
Proof.
  unfold key_cmp, key_lt.
  destruct (Z.compare_spec a.1.1 b.1.1), (Z.compare_spec a.1.2 b.1.2),
    (Z.compare_spec a.2 b.2); split; intros; try lia; try discriminate; try reflexivity.
Qed.

Lemma ltb_key x y :
  (x <? y)%float = true ↔ ∃ kx ky, float_key x = Some kx ∧ float_key y = Some ky ∧ key_lt kx ky.
Proof.
  rewrite ltb_spec. unfold SFltb, float_key. rewrite SFcompare_key.
  destruct (sf_key (Prim2SF x)) as [kx|], (sf_key (Prim2SF y)) as [ky|].
  - destruct (key_cmp kx ky) eqn:Hc; split; try discriminate.
    + intros (? & ? & [= <-] & [= <-] & Hlt). apply key_cmp_Lt in Hlt. congruence.
    + intros _. exists kx, ky. by rewrite <- key_cmp_Lt.
    + done.
    + intros (? & ? & [= <-] & [= <-] & Hlt). apply key_cmp_Lt in Hlt. congruence.
  - split; [done | by intros (? & ? & _ & ? & _)].
  - split; [done | by intros (? & ? & ? & _ & _)].
  - split; [done | by intros (? & ? & ? & _ & _)].
Qed.

Lemma leb_key x y :
  (x <=? y)%float = true ↔
  ∃ kx ky, float_key x = Some kx ∧ float_key y = Some ky ∧ (key_lt kx ky ∨ kx = ky).
Proof.
  rewrite leb_spec. unfold SFleb, float_key. rewrite SFcompare_key.
  destruct (sf_key (Prim2SF x)) as [kx|], (sf_key (Prim2SF y)) as [ky|].
  - destruct (key_cmp kx ky) eqn:Hc; split; try discriminate.
    + intros _. exists kx, ky. apply key_cmp_Eq in Hc. auto.
    + done.
    + intros _. exists kx, ky. apply key_cmp_Lt in Hc. auto.
    + done.
    + intros (? & ? & [= <-] & [= <-] & [Hlt| ->]).
      * apply key_cmp_Lt in Hlt. congruence.
      * assert (key_cmp ky ky = Eq) by by apply key_cmp_Eq. congruence.
  - split; [done | by intros (? & ? & _ & ? & _)].
  - split; [done | by intros (? & ? & ? & _ & _)].
  - split; [done | by intros (? & ? & ? & _ & _)].
Qed.

Lemma key_total a b : key_lt a b ∨ a = b ∨ key_lt b a.
Proof.
  unfold key_lt. destruct a as [[a1 a2] a3], b as [[b1 b2] b3]; simpl.
  destruct (Z.lt_total a1 b1) as [?|[?|?]]; [lia | | lia].
  destruct (Z.lt_total a2 b2) as [?|[?|?]]; [lia | | lia].
  destruct (Z.lt_total a3 b3) as [?|[?|?]]; [lia | | lia].
  right; left. congruence.
Qed.

Lemma float_ltb_irrefl x : (x <? x)%float = false.
Proof.
  apply not_true_is_false. rewrite ltb_key.
  intros (kx & ky & Hx & Hy & Hlt). assert (kx = ky) as -> by congruence.
  unfold key_lt in Hlt. lia.
Qed.

Lemma float_ltb_trans x y z :
  (x <? y)%float = true → (y <? z)%float = true → (x <? z)%float = true.
Proof.
  rewrite !ltb_key. intros (kx & ky & Hx & Hy & H1) (ky' & kz & Hy' & Hz & H2).
  assert (ky' = ky) as -> by congruence.
  exists kx, kz. split_and!; try done. unfold key_lt in *. lia.
Qed.

Lemma float_ltb_leb_trans x y z :
  (x <? y)%float = true → (y <=? z)%float = true → (x <? z)%float = true.
Proof.
  rewrite !ltb_key, leb_key. intros (kx & ky & Hx & Hy & H1) (ky' & kz & Hy' & Hz & H2).
  assert (ky' = ky) as -> by congruence.
  exists kx, kz. split_and!; try done. destruct H2 as [H2| <-]; [|done].
  unfold key_lt in *. lia.
Qed.

Lemma float_leb_ltb_trans x y z :
  (x <=? y)%float = true → (y <? z)%float = true → (x <? z)%float = true.
Proof.
  rewrite !ltb_key, leb_key. intros (kx & ky & Hx & Hy & H1) (ky' & kz & Hy' & Hz & H2).
  assert (ky' = ky) as -> by congruence.
  exists kx, kz. split_and!; try done. destruct H1 as [H1| ->]; [|done].
  unfold key_lt in *. lia.
Qed.

Lemma float_ltb_asym x y : (x <? y)%float = true → (y <? x)%float = false.
Proof.
  intros H1. apply not_true_is_false. intros H2.
  pose proof (float_ltb_trans _ _ _ H1 H2) as H3.
  by rewrite float_ltb_irrefl in H3.
Qed.

(** Two floats that compare above something are not NaN, hence comparable. *)
Lemma float_not_ltb_leb c d x y :
  (c <? x)%float = true → (d <? y)%float = true →
  (x <? y)%float = false → (y <=? x)%float = true.
Proof.
  intros (_ & kx & _ & Hx & _)%ltb_key (_ & ky & _ & Hy & _)%ltb_key Hn.
  apply leb_key. exists ky, kx. split_and!; try done.
  destruct (key_total kx ky) as [Hlt|[->|Hlt]]; auto.
  exfalso. apply not_true_iff_false in Hn. apply Hn, ltb_key. eauto.
Qed.

Lemma float_ltb_leb x y : (x <? y)%float = true → (x <=? y)%float = true.
Proof.
  rewrite ltb_key, leb_key. intros (kx & ky & Hx & Hy & Hlt). eauto 10.
Qed.

(** ** The brute-force search *)

Section best_scan.
Context (sc : assignment → float).

Lemma is_first_max_app_l L B i a r :
  is_first_max sc L i a r →
  (∀ a', a' ∈ B → (r <? sc a')%float = false) →
  is_first_max sc (L ++ B) i a r.
Proof.
  intros (Hi & Hsc & Hmax & Hfirst) HB. split_and!; [| done | |].
  - by apply lookup_app_l_Some.
  - intros a' [?|?]%elem_of_app; auto.
  - intros j a' Hj Hl. apply (Hfirst j a' Hj).
    rewrite lookup_app_l in Hl; [done |]. apply lookup_lt_Some in Hi. lia.
Qed.

Lemma is_first_max_app_r L B k a r :
  is_first_max sc B k a r →
  (∀ a', a' ∈ L → (r <=? sc a')%float = false) →
  is_first_max sc (L ++ B) (length L + k) a r.
Proof.
  intros (Hk & Hsc & Hmax & Hfirst) HL. split_and!; [| done | |].
  - rewrite lookup_app_r by lia. by replace (length L + k - length L)%nat with k by lia.
  - intros a' [Ha'|Ha']%elem_of_app; [|by auto].
    apply not_true_is_false. intros Hlt%float_ltb_leb. by rewrite (HL a' Ha') in Hlt.
  - intros j a' Hj Hl. destruct (decide (j < length L)%nat) as [Hlt|Hge].
    + rewrite lookup_app_l in Hl by done. apply HL. by eapply list_elem_of_lookup_2.
    + rewrite lookup_app_r in Hl by lia. apply (Hfirst (j - length L)%nat); [lia | done].
Qed.

Lemma running_best_step L B cur cand :
  running_best sc L cur → block_result sc B cand →
  running_best sc (L ++ B) (keep_better cur cand).
Proof.
  unfold keep_better.
  destruct cand as [[a|] r], cur as [[a0|] r0]; simpl.
  - (* a running best meets a candidate *)
    intros [[i Hcur] Hpos0] [[k Hcand] Hleaf].
    destruct (r0 <? r)%float eqn:Hlt; simpl.
    + split; [|by eapply float_ltb_trans].
      eexists. apply is_first_max_app_r; [done |].
      intros a' Ha'. apply not_true_is_false. intros Hle.
      pose proof (float_ltb_leb_trans _ _ _ Hlt Hle) as Hcontra.
      destruct Hcur as (_ & _ & Hmax & _). by rewrite (Hmax a' Ha') in Hcontra.
    + split; [|done]. exists i. apply is_first_max_app_l; [done |].
      intros a' Ha'. destruct Hleaf as [-> | Hpos].
      * apply list_elem_of_singleton in Ha' as ->.
        destruct Hcand as (_ & -> & _). done.
      * apply not_true_is_false. intros Hlt'.
        pose proof (float_not_ltb_leb _ _ _ _ Hpos0 Hpos Hlt) as Hle.
        pose proof (float_leb_ltb_trans _ _ _ Hle Hlt') as Hcontra.
        destruct Hcand as (_ & _ & Hmax & _). by rewrite (Hmax a' Ha') in Hcontra.
  - (* the first candidate *)
    intros [-> Hnone] [[k Hcand] Hleaf].
    destruct (0 <? r)%float eqn:Hlt; simpl.
    + split; [|done]. eexists. apply is_first_max_app_r; [done |].
      intros a' Ha'. apply not_true_is_false. intros Hle.
      pose proof (float_ltb_leb_trans _ _ _ Hlt Hle) as Hcontra.
      by rewrite (Hnone a' Ha') in Hcontra.
    + split; [done |]. intros a' [Ha'|Ha']%elem_of_app; [by auto |].
      destruct Hleaf as [-> | Hpos]; [|congruence].
      apply list_elem_of_singleton in Ha' as ->.
      destruct Hcand as (_ & -> & _). done.
  - (* no candidate below: the running best stays *)
    intros [[i Hcur] Hpos0] [-> Hnone].
    rewrite (float_ltb_asym _ _ Hpos0). simpl. split; [|done].
    exists i. apply is_first_max_app_l; [done |].
    intros a' Ha'. apply not_true_is_false. intros Hlt.
    pose proof (float_ltb_trans _ _ _ Hpos0 Hlt) as Hcontra.
    by rewrite (Hnone a' Ha') in Hcontra.
  - intros [-> HL] [-> HB]. simpl. split; [done |].
    intros a' [?|?]%elem_of_app; auto.
Qed.

Lemma bj_loop_spec rec assigned name (block : Z → list assignment) vals :
  (∀ val, val ∈ vals →
     ∃ cand, rec (<[name := VInt val]> assigned) = Ok cand
             ∧ block_result sc (block val) cand) →
  ∀ L cur, running_best sc L cur →
  ∃ res, bj_loop rec assigned name vals cur = Ok res
         ∧ running_best sc (L ++ (vals ≫= block)) res.
Proof.
  induction vals as [|val vals IH]; intros Hrec L cur Hcur; simpl.
  - exists cur. by rewrite app_nil_r.
  - destruct (Hrec val) as ([full_a r] & -> & Hcand); [left |]. simpl.
    destruct (IH (λ v Hv, Hrec v (list_elem_of_further _ _ _ Hv))
                 (L ++ block val)%list (keep_better cur (full_a, r)))
      as (res & Hres & Hbest).
    + by apply running_best_step.
    + exists res. split; [done |]. by rewrite app_assoc.
Qed.
End best_scan.

Lemma joint_score_Ok h g a r : Graph_joint h g a = Ok r → joint_score h g a = r.
Proof. unfold joint_score. by intros ->. Qed.

Lemma bf_bj_recurse_spec h g todo :
  ∀ assigned,
    Forall (λ a, ∃ r, Graph_joint h g a = Ok r) (enum_assignments h assigned todo) →
    ∃ res, Graph_bf_bj_recurse h g assigned todo = Ok res
           ∧ match todo with
             | [] => res = (Some assigned, joint_score h g assigned)
             | _ :: _ =>
                 running_best (joint_score h g) (enum_assignments h assigned todo) res
             end.
Proof.
  induction todo as [|r todo IH]; intros assigned Hall.
  - simpl in *. apply Forall_singleton in Hall as [s Hs].
    rewrite Hs. simpl. eexists. split; [done |]. by rewrite (joint_score_Ok _ _ _ _ Hs).
  - cbn [Graph_bf_bj_recurse enum_assignments] in *.
    apply (bj_loop_spec (joint_score h g) _ assigned _
             (λ val, enum_assignments h (<[RV.name (the_rv h r) := VInt val]> assigned) todo)
             _ ) with (L := []) (cur := (None, 0%float));
      [| split; [done | by intros ? ?%not_elem_of_nil]].
    intros val Hval.
    destruct (IH (<[RV.name (the_rv h r) := VInt val]> assigned)) as (cand & Hcand & Hspec).
    { apply Forall_forall. intros a Ha. rewrite Forall_forall in Hall.
      apply Hall, list_elem_of_bind. eauto. }
    exists cand. split; [done |]. destruct todo as [|r' todo'].
    + subst cand. simpl. split; [|by left]. exists 0%nat. split_and!; try done.
      * intros a' ->%list_elem_of_singleton. apply float_ltb_irrefl.
      * intros j a' Hj. lia.
    + destruct cand as [[a|] s]; simpl in *.
      * destruct Hspec as [? ?]. auto.
      * done.
Qed.

(** Every full assignment of integers is among the leaves. *)
Lemma enum_assignments_complete h todo :
  NoDup ((λ r, RV.name (the_rv h r)) <$> todo) →
  ∀ assigned a,
    (∀ k, k ∉ (λ r, RV.name (the_rv h r)) <$> todo → a !! k = assigned !! k) →
    (∀ r, r ∈ todo → ∃ z, a !! RV.name (the_rv h r) = Some (VInt z)
                          ∧ 0 ≤ z < RV.n_opts (the_rv h r)) →
    a ∈ enum_assignments h assigned todo.
Proof.
  induction todo as [|r todo IH]; intros Hnd assigned a Hout Hin; simpl.
  - apply list_elem_of_singleton, map_eq. intros k. apply Hout, not_elem_of_nil.
  - rewrite fmap_cons in Hnd. apply NoDup_cons in Hnd as [Hr Hnd].
    destruct (Hin r) as (z & Hz & Hrange); [left |].
    apply list_elem_of_bind. exists z. split.
    + apply IH; [done | |].
      * intros k Hk. destruct (decide (RV.name (the_rv h r) = k)) as [<-|Hne].
        -- by rewrite lookup_insert_eq.
        -- rewrite lookup_insert_ne by done. apply Hout.
           rewrite fmap_cons. intros [?|?]%elem_of_cons; congruence.
      * intros r' Hr'. apply Hin. by right.
    + unfold py_range. apply elem_of_seqZ. lia.
Qed.

(** ... and every leaf is one. *)
Lemma enum_assignments_sound h todo :
  NoDup ((λ r, RV.name (the_rv h r)) <$> todo) →
  ∀ assigned a, a ∈ enum_assignments h assigned todo →
    (∀ k, k ∉ (λ r, RV.name (the_rv h r)) <$> todo → a !! k = assigned !! k)
    ∧ (∀ r, r ∈ todo → ∃ z, a !! RV.name (the_rv h r) = Some (VInt z)
                            ∧ 0 ≤ z < RV.n_opts (the_rv h r)).
Proof.
  induction todo as [|r todo IH]; intros Hnd assigned a Ha; simpl in Ha.
  - apply list_elem_of_singleton in Ha as ->. split; [done |].
    by intros r ?%not_elem_of_nil.
  - rewrite fmap_cons in Hnd. apply NoDup_cons in Hnd as [Hr Hnd].
    apply list_elem_of_bind in Ha as (val & Ha & Hval).
    destruct (IH Hnd _ _ Ha) as [Hout Hin]. split.
    + intros k Hk. rewrite fmap_cons in Hk. apply not_elem_of_cons in Hk as [Hne Hk].
      rewrite (Hout k Hk). by rewrite lookup_insert_ne.
    + intros r' [->|Hr']%elem_of_cons; [|by apply Hin].
      exists val. rewrite (Hout _ Hr), lookup_insert_eq. split; [done |].
      unfold py_range in Hval. apply elem_of_seqZ in Hval. lia.
Qed.

Lemma full_assignments_spec h g a :
  NoDup (graph_rv_names h g) → a ∈ full_assignments h g ↔ full_int_assignment h g a.
Proof.
  intros Hnd. split.
  - intros Ha. destruct (enum_assignments_sound h _ Hnd ∅ a Ha) as [Hout Hin].
    split; [|done]. intros k Hk. by rewrite (Hout k Hk), lookup_empty.
  - intros [Hout Hin]. apply enum_assignments_complete; [done | | done].
    intros k Hk. rewrite lookup_empty. by apply Hout.
Qed.

(** C6, as amended: [bf_best_joint] visits every full assignment of
    integer values to the graph's RVs (the leaves [full_assignments], which
    are exactly those assignments when the RVs' names are distinct) and,
    provided [joint] evaluates on each of them and at least one scores
    strictly above 0.0, returns an assignment together with its score such
    that no full assignment scores strictly more; on ties the first one
    visited is kept: no assignment visited earlier scores as much. *)
Theorem bf_best_joint_first_maximum (h : Heap) (g : Graph.t) :
  Forall (λ a, ∃ r, Graph_joint h g a = Ok r) (full_assignments h g) →
  Exists (λ a, ∃ r, Graph_joint h g a = Ok r ∧ (0 <? r)%float = true)
         (full_assignments h g) →
  (NoDup (graph_rv_names h g) →
   ∀ a, a ∈ full_assignments h g ↔ full_int_assignment h g a)
  ∧ ∃ a r i,
      Graph_bf_best_joint h g = Ok (Some a, r)
      ∧ full_assignments h g !! i = Some a
      ∧ Graph_joint h g a = Ok r
      ∧ (∀ a' r', a' ∈ full_assignments h g → Graph_joint h g a' = Ok r' →
           (r <? r')%float = false)
      ∧ (∀ j a' r', (j < i)%nat → full_assignments h g !! j = Some a' →
           Graph_joint h g a' = Ok r' → (r <=? r')%float = false).
Proof.
  intros Hall Hex. split; [intros; by apply full_assignments_spec |].
  unfold Graph_bf_best_joint, full_assignments in *.
  destruct (bf_bj_recurse_spec h g _ ∅ Hall) as (res & Hres & Hspec).
  assert (∀ a r, a ∈ enum_assignments h ∅ (Graph._rvs g).*2 →
                 joint_score h g a = r → Graph_joint h g a = Ok r) as Hscore.
  { intros a r Ha <-. rewrite Forall_forall in Hall.
    destruct (Hall a Ha) as [s Hs]. by rewrite (joint_score_Ok _ _ _ _ Hs). }
  destruct ((Graph._rvs g).*2) as [|r0 todo] eqn:Htodo.
  - subst res. simpl in *. exists ∅, (joint_score h g ∅), 0%nat.
    split_and!; try done.
    + apply Hscore; [left | done].
    + intros a' r' ->%list_elem_of_singleton Hr'.
      rewrite (joint_score_Ok _ _ _ _ Hr'). apply float_ltb_irrefl.
    + intros j a' r' Hj. lia.
  - destruct res as [[a|] r]; simpl in Hspec.
    + destruct Hspec as [(i & Hi & Hsc & Hmax & Hfirst) Hpos].
      exists a, r, i. split_and!; try done.
      * apply Hscore; [|done]. by eapply list_elem_of_lookup_2.
      * intros a' r' Ha' Hr'. rewrite <- (joint_score_Ok _ _ _ _ Hr'). by apply Hmax.
      * intros j a' r' Hj Ha' Hr'. rewrite <- (joint_score_Ok _ _ _ _ Hr').
        by eapply Hfirst.
    + exfalso. destruct Hspec as [_ Hnone].
      apply Exists_exists in Hex as (a & Ha & s & Hs & Hpos).
      specialize (Hnone a Ha). rewrite (joint_score_Ok _ _ _ _ Hs) in Hnone. congruence.
Qed.

(** C9, as amended: for every graph with at least one RV in which [joint]
    evaluates on every full assignment and none scores strictly above
    0.0, [bf_best_joint] returns [None] as the best assignment, paired with
    the score 0.0: the comparison against the running best is strict. *)
Theorem bf_best_joint_none_without_positive_score (h : Heap) (g : Graph.t) :
  Graph._rvs g ≠ [] →
  Forall (λ a, ∃ r, Graph_joint h g a = Ok r ∧ (0 <? r)%float = false)
         (full_assignments h g) →
  Graph_bf_best_joint h g = Ok (None, 0%float).
Proof.
  intros Hne Hall. unfold Graph_bf_best_joint, full_assignments in *.
  destruct (bf_bj_recurse_spec h g (Graph._rvs g).*2 ∅) as (res & Hres & Hspec).
  { eapply Forall_impl; [done |]. intros a (r & Hr & _). eauto. }
  rewrite Hres. destruct ((Graph._rvs g).*2) as [|r0 todo] eqn:Htodo.
  - by apply fmap_nil_inv in Htodo.
  - destruct res as [[a|] r]; simpl in Hspec.
    + exfalso. destruct Hspec as [(i & Hi & Hsc & _) Hpos].
      rewrite Forall_forall in Hall.
      destruct (Hall a) as (s & Hs & Hs0); [by eapply list_elem_of_lookup_2 |].
      rewrite (joint_score_Ok _ _ _ _ Hs) in Hsc. congruence.
    + by destruct Hspec as [-> _].
Qed.

(** ** [RV.recompute_outgoing] *)

Lemma comprehension_const {A B} (body : A → result B) (b : B) (l : list A) :
  (∀ a, a ∈ l → body a = Ok b) → comprehension body l = Ok (replicate (length l) b).
Proof.
  induction l as [|a l IH]; intros Hb; simpl; [done |].
  rewrite Hb by left. simpl. rewrite IH; [done |]. intros a' Ha'. apply Hb. by right.
Qed.

Lemma np_ones_nonneg n : 0 ≤ n → np_ones n = Ok (replicate (Z.to_nat n) 1%float).
Proof. intros Hn. unfold np_ones. by rewrite (proj2 (Z.ltb_ge n 0)). Qed.

Lemma zip_with_ones (op : float → float → float) (k : nat) :
  op 1%float 1%float = 1%float →
  zip_with op (replicate k 1%float) (replicate k 1%float) = replicate k 1%float.
Proof. intros Hop. induction k as [|k IH]; simpl; [done | by rewrite Hop, IH]. Qed.

Lemma broadcast2_same_length {A B C} (op : A → B → C) a b :
  length a = length b → broadcast2 op a b = Ok (zip_with op a b).
Proof. intros Hlen. unfold broadcast2. by rewrite bool_decide_eq_true_2. Qed.

(** What the second loop stores is [total / incoming[i]] with [total] the
    all-ones vector: on an incoming message other than ones it is the
    entrywise inverse of that message. *)
Example rv_send_divides_ones :
  rv_send 2 [1; 1]%float [[2; 4]%float] [[1; 1]%float] [0%nat] [[1; 1]%float] true
  = Ok ([[0.5; 0.25]%float], false).
Proof. vm_compute. reflexivity. Qed.

(** ** The claims on concrete graphs *)

Lemma pyfac_valid :
  valid_assignment pyfac_heap pyfac_graph {[ "a" := VInt 0; "b" := VInt 1 ]}.
Proof.
  split_and!.
  - intros name r Hin. change (Graph._rvs pyfac_graph) with [("a", 0%nat); ("b", 1%nat)] in Hin.
    apply elem_of_cons in Hin as [[= -> ->] | Hin].
    { exists (VInt 0). split; [reflexivity | simpl; lia]. }
    apply list_elem_of_singleton in Hin as [= -> ->].
    exists (VInt 1). split; [reflexivity | simpl; lia].
  - reflexivity.
  - intros name [v Hv].
    destruct (decide (name = "a")) as [->|Ha]; [by eexists |].
    destruct (decide (name = "b")) as [->|Hb]; [by eexists |].
    rewrite lookup_insert_ne, lookup_singleton_ne in Hv by done. done.
Qed.

Lemma joint_is_product_of_evals_witness :
  Graph_joint pyfac_heap pyfac_graph {[ "a" := VInt 0; "b" := VInt 1 ]}
  = Ok (fold_left PrimFloat.mul [0.7; 0.8]%float 1%float)
  ∧ (Graph._factors pyfac_graph = [] →
     Graph_joint pyfac_heap pyfac_graph {[ "a" := VInt 0; "b" := VInt 1 ]} = Ok 1%float).
Proof.
  apply (joint_is_product_of_evals pyfac_heap pyfac_graph _ [0.7; 0.8]%float).
  - exact pyfac_valid.
  - repeat constructor; eexists; (split; [vm_compute; reflexivity | reflexivity]).
Defined.

(** The claim as stated fails: the assignment gives the graph's only RV a
    value of its domain, yet [joint] raises on the extra entry instead of
    returning 1.0 for the empty factor list. *)
Lemma joint_rejects_extra_entry :
  covers single_heap factorless_graph {[ "r" := VInt 0; "z" := VInt 0 ]}
  ∧ Graph._factors factorless_graph = []
  ∧ Graph_joint single_heap factorless_graph {[ "r" := VInt 0; "z" := VInt 0 ]}
    = Raise AssertionError.
Proof.
  split_and!; [| reflexivity | vm_compute; reflexivity].
  intros name r Hin. change (Graph._rvs factorless_graph) with [("r", 0%nat)] in Hin.
  apply list_elem_of_singleton in Hin as [= -> ->].
  exists (VInt 0). split; [reflexivity | simpl; lia].
Qed.

Lemma set_belief_checks_shape_witness :
  Factor_set_belief single_heap (the_factor single_heap 0) (vector [1; 2; 3]%float)
  = Raise AssertionError
  ∧ Factor_set_belief single_heap (the_factor single_heap 0) (vector [0.5; 0.5]%float)
    = Ok (with_belief (the_factor single_heap 0) (vector [0.5; 0.5]%float)).
Proof.
  split.
  - apply (set_belief_checks_shape single_heap (the_factor single_heap 0)
             (vector [1; 2; 3]%float) eq_refl).
    right. exists 0%nat, 3%nat, 0%nat. by split_and!.
  - apply (set_belief_checks_shape single_heap (the_factor single_heap 0)
             (vector [0.5; 0.5]%float) eq_refl).
    apply shape_matches_iff. repeat constructor.
Defined.

(** The claim as stated fails: a factor built with [debug=False] accepts a
    belief whose only axis has length 3 over an RV of cardinality 2. *)
Lemma set_belief_unchecked_accepts_mismatch :
  shape_mismatch unchecked_heap (the_factor unchecked_heap 0) (vector [1; 2; 3]%float)
  ∧ Factor_set_belief unchecked_heap (the_factor unchecked_heap 0) (vector [1; 2; 3]%float)
    = Ok (with_belief (the_factor unchecked_heap 0) (vector [1; 2; 3]%float)).
Proof.
  split; [|reflexivity]. right. exists 0%nat, 3%nat, 0%nat. by split_and!.
Qed.



Lemma bf_best_joint_first_maximum_witness :
  ∃ a r i,
    Graph_bf_best_joint pyfac_heap pyfac_graph = Ok (Some a, r)
    ∧ full_assignments pyfac_heap pyfac_graph !! i = Some a
    ∧ Graph_joint pyfac_heap pyfac_graph a = Ok r
    ∧ (∀ a' r', a' ∈ full_assignments pyfac_heap pyfac_graph →
         Graph_joint pyfac_heap pyfac_graph a' = Ok r' → (r <? r')%float = false)
    ∧ (∀ j a' r', (j < i)%nat → full_assignments pyfac_heap pyfac_graph !! j = Some a' →
         Graph_joint pyfac_heap pyfac_graph a' = Ok r' → (r <=? r')%float = false).
Proof.
  apply (bf_best_joint_first_maximum pyfac_heap pyfac_graph).
  - compute_leaves pyfac_heap pyfac_graph.
    repeat (apply Forall_cons; split; [eexists; vm_compute; reflexivity |]).
    apply Forall_nil_2.
  - compute_leaves pyfac_heap pyfac_graph.
    apply Exists_cons_hd. eexists. split; vm_compute; reflexivity.
Defined.

(** The claim as stated fails: every assignment of this graph scores 0.0,
    the maximum, and the search returns no assignment. *)
Lemma bf_best_joint_all_zero_returns_none :
  {[ "r" := VInt 0 ]} ∈ full_assignments zero_belief_heap single_graph
  ∧ Graph_joint zero_belief_heap single_graph {[ "r" := VInt 0 ]} = Ok 0%float
  ∧ Graph_joint zero_belief_heap single_graph {[ "r" := VInt 1 ]} = Ok 0%float
  ∧ Graph_bf_best_joint zero_belief_heap single_graph = Ok (None, 0%float).
Proof.
  split_and!; try (vm_compute; reflexivity).
  compute_leaves zero_belief_heap single_graph. left.
Qed.

Example tie_keeps_first :
  set_belief_at single_heap 0 (vector [0.5; 0.5]%float) = Ok tied_belief_heap
  ∧ Graph_joint tied_belief_heap single_graph {[ "r" := VInt 1 ]} = Ok 0.5%float
  ∧ Graph_bf_best_joint tied_belief_heap single_graph
    = Ok (Some {[ "r" := VInt 0 ]}, 0.5%float).
Proof. split_and!; vm_compute; reflexivity. Qed.

Lemma bf_best_joint_none_without_positive_score_witness :
  Graph._rvs single_graph ≠ []
  ∧ Graph_bf_best_joint zero_belief_heap single_graph = Ok (None, 0%float).
Proof.
  split; [done |].
  apply (bf_best_joint_none_without_positive_score zero_belief_heap single_graph).
  - done.
  - compute_leaves zero_belief_heap single_graph.
    repeat (apply Forall_cons; split; [eexists; split; vm_compute; reflexivity |]).
    apply Forall_nil_2.
Defined.

(** The claim as stated fails on a graph without RVs: its one full
    assignment, the empty one, scores 0.0 and is returned. *)
Lemma bf_best_joint_no_rv_returns_empty :
  Forall (λ a, ∃ r, Graph_joint no_rv_heap no_rv_graph_g a = Ok r ∧ (0 <? r)%float = false)
         (full_assignments no_rv_heap no_rv_graph_g)
  ∧ Graph_bf_best_joint no_rv_heap no_rv_graph_g = Ok (Some ∅, 0%float).
Proof.
  split; [|vm_compute; reflexivity].
  compute_leaves no_rv_heap no_rv_graph_g.
  apply Forall_cons. split; [eexists; split; vm_compute; reflexivity |].
  apply Forall_nil_2.
Qed.

(** ** Where the message passing stops short of the specification *)

Lemma comprehension_Forall2 {A B} (body : A → result B) (l : list A) (out : list B) :
  Forall2 (λ a b, body a = Ok b) l out → comprehension body l = Ok out.
Proof. induction 1 as [|a b l out Hb _ IH]; simpl; [done | by rewrite Hb, IH]. Qed.

Lemma rv_send_reciprocal (n_opts : Z) (incoming old : list vec) :
  Forall (λ m : vec, length m = Z.to_nat n_opts) incoming →
  Forall (λ o : vec, length o = Z.to_nat n_opts) old →
  length old = length incoming →
  ∀ len j convg, (j + len = length incoming)%nat →
    ∃ convg',
      rv_send n_opts (replicate (Z.to_nat n_opts) 1%float) incoming old (seq j len)
        ((reciprocal <$> take j incoming) ++ drop j old) convg
      = Ok (reciprocal <$> incoming, convg').
Proof.
  intros Hin Hold Hlen len. induction len as [|len IH]; intros j convg Hj.
  - simpl. exists convg. by rewrite take_ge, drop_ge, app_nil_r by lia.
  - cbn [seq rv_send].
    destruct (lookup_lt_is_Some_2 incoming j) as [m Hm]; [lia |].
    destruct (lookup_lt_is_Some_2 old j) as [o Ho]; [lia |].
    pose proof (Forall_lookup_1 _ _ _ _ Hin Hm) as Hmlen.
    pose proof (Forall_lookup_1 _ _ _ _ Hold Ho) as Holen.
    simpl in Hmlen, Holen.
    rewrite Hm. simpl.
    rewrite broadcast2_same_length by (by rewrite length_replicate).
    rewrite zip_with_replicate_l by lia. fold (reciprocal m). simpl.
    assert (length (reciprocal <$> take j incoming) = j) as Htake.
    { rewrite length_fmap, length_take. lia. }
    rewrite bool_decide_eq_true_2
      by (rewrite length_app, Htake, length_drop; lia).
    simpl.
    change (PrimFloat.div 1 <$> m) with (reciprocal m).
    assert (<[j := reciprocal m]> ((reciprocal <$> take j incoming) ++ drop j old)
            = (reciprocal <$> take (S j) incoming) ++ drop (S j) old)%list as ->.
    { rewrite insert_app_r_alt by lia. rewrite Htake, Nat.sub_diag.
      rewrite (drop_S _ _ _ Ho), (take_S_r _ _ _ Hm), fmap_app. simpl.
      by rewrite <- app_assoc. }
    assert (∃ c, (if convg
                  then old_j ← match old !! j with
                               | Some o' => Ok o'
                               | None => Raise IndexError
                               end;
                       close ← np_isclose old_j (reciprocal m);
                       Ok (py_sum_bools close =? n_opts)
                  else Ok false) = Ok c) as [c ->].
    { destruct convg; [|by eauto]. rewrite Ho. simpl. unfold np_isclose.
      rewrite broadcast2_same_length; [simpl; by eauto |].
      unfold reciprocal. rewrite length_fmap. lia. }
    simpl. apply IH. lia.
Qed.

Lemma RV_recompute_outgoing_with_reciprocal get_message_for self old incoming :
  0 ≤ RV.n_opts self → RV._outgoing self = Some old →
  Forall2 (λ _ o, Z.of_nat (length o) = RV.n_opts self) (RV._factors self) old →
  Forall2 (λ f m, get_message_for f self = Ok m
                  ∧ Z.of_nat (length m) = RV.n_opts self) (RV._factors self) incoming →
  ∃ convg, RV_recompute_outgoing_with get_message_for self
           = Ok (RV_set_outgoing self (Some (reciprocal <$> incoming)), convg).
Proof.
  intros Hn Hout Hold Hin. unfold RV_recompute_outgoing_with. rewrite Hout.
  assert (when (RV.debug self) (py_assert (bool_decide (is_Some (Some old)))) = Ok tt) as ->.
  { by destruct (RV.debug self). }
  simpl. rewrite np_ones_nonneg by done. simpl.
  rewrite (comprehension_Forall2 _ _ incoming).
  - simpl.
    destruct (rv_send_reciprocal (RV.n_opts self) incoming old) with
      (len := length (RV._factors self)) (j := 0%nat) (convg := true) as [convg Hsend].
    + clear -Hin. induction Hin as [|f m fs ms [_ Hm] _ IH]; constructor; [lia | done].
    + clear -Hold. induction Hold as [|f o fs os Ho _ IH]; constructor; [lia | done].
    + apply Forall2_length in Hin, Hold. lia.
    + apply Forall2_length in Hin. lia.
    + rewrite take_0, drop_0 in Hsend. simpl in Hsend. rewrite Hsend. simpl.
      by exists convg.
  - eapply Forall2_impl; [exact Hin |]. intros f m [-> Hm]. simpl.
    destruct (RV.debug self); simpl; [|done]. by rewrite bool_decide_eq_true_2.
Qed.


(** C5: [get_message_for] does not return the factor's stored outgoing
    message.  It returns the all-ones vector whatever the factor holds: on
    the unary factor whose stored message to its RV is [0.8, 0.2] it
    returns [1.0, 1.0], and it returns the same before any message has been
    stored. *)
Theorem get_message_for_ignores_stored_message :
  (∀ self rv, Factor_get_message_for self rv = np_ones (RV.n_opts rv))
  ∧ spec_stored_message_for informed_factor 0 = Some [0.8; 0.2]%float
  ∧ Factor_get_message_for informed_factor (the_rv single_heap 0) = Ok [1; 1]%float
  ∧ spec_stored_message_for (the_factor single_heap 0) 0 = None
  ∧ Factor_get_message_for (the_factor single_heap 0) (the_rv single_heap 0)
    = Ok [1; 1]%float.
Proof. split_and!; reflexivity. Qed.

(** C2: [Factor.recompute_outgoing] changes nothing and returns [True].  On
    the unary factor with belief [8.0, 2.0] the stored message stays
    [1.0, 1.0], where the sum-product rule gives [8.0, 2.0] and, once
    normalised, [0.8, 0.2]. *)
Theorem Factor_recompute_outgoing_sends_nothing :
  (∀ self, Factor_recompute_outgoing self = (self, true))
  ∧ Factor._belief ready_factor = Some (vector [8; 2]%float)
  ∧ Factor._outgoing (Factor_recompute_outgoing ready_factor).1 = Some [[1; 1]%float]
  ∧ spec_sum_product (vector [8; 2]%float) [[1; 1]%float] 0 = [8; 2]%float
  ∧ spec_normalise (spec_sum_product (vector [8; 2]%float) [[1; 1]%float] 0)
    = [0.8; 0.2]%float.
Proof. split_and!; reflexivity. Qed.

(** C8: the convergence flag of [RV.recompute_outgoing] is computed with
    [np.isclose] at its default tolerances, not with [EPSILON].  A message
    that moves from [1.00005, 1.0] to [1.0, 1.0] is within [EPSILON]
    (0.0001) of its previous value, and the flag is [False]. *)
Theorem convergence_flag_ignores_EPSILON :
  RV._outgoing drifted_rv = Some [[1.00005; 1]%float]
  ∧ RV_recompute_outgoing single_heap drifted_rv
    = Ok (RV_set_outgoing drifted_rv (Some [[1; 1]%float]), false)
  ∧ spec_within_EPSILON [1.00005; 1]%float [1; 1]%float = true
  ∧ isclose1 1.00005%float 1%float = false.
Proof. split_and!; vm_compute; reflexivity. Qed.

(** C4: [Graph.lbp] stops after its loop and computes no marginal.  On the
    single RV of cardinality 2 with one unary factor of belief [8.0, 2.0]
    it does converge in one sweep, but the only message the RV receives is
    [1.0, 1.0]: the normalised product of its incoming messages is
    [0.5, 0.5], not [0.8, 0.2]. *)
Theorem lbp_leaves_uniform_messages :
  Graph_lbp single_heap single_graph = Ok (single_heap_after_lbp, 1%nat, true)
  ∧ incoming_messages single_heap_after_lbp (the_rv single_heap_after_lbp 0)
    = Ok [[1; 1]%float]
  ∧ spec_marginal single_heap_after_lbp (the_rv single_heap_after_lbp 0)
    = Ok [0.5; 0.5]%float
  ∧ spec_normalise [8; 2]%float = [0.8; 0.2]%float.
Proof. split_and!; vm_compute; reflexivity. Qed.

(** ** [joint] returns on the graphs the module builds *)

Lemma list_index_elem s l :
  s ∈ l → ∃ k, list_index s l = Some k ∧ (k < length l)%nat.
Proof.
  induction l as [|s' l IH]; simpl; [by intros ?%not_elem_of_nil |].
  case_bool_decide as Heq.
  - intros _. exists 0%nat. split; [done | lia].
  - intros [?|Hin]%elem_of_cons; [congruence |].
    destruct (IH Hin) as (k & -> & Hk). exists (S k). split; [done | lia].
Qed.

Lemma label_index_in_range h x r v :
  x !! RV.name (the_rv h r) = Some v → in_domain (the_rv h r) v →
  (RV.labels (the_rv h r) = []
   ∨ Z.of_nat (length (RV.labels (the_rv h r))) = RV.n_opts (the_rv h r)) →
  ∃ i, label_index h x r = Ok i ∧ 0 ≤ i < RV.n_opts (the_rv h r).
Proof.
  intros Hx Hdom Hlabels. unfold label_index. rewrite Hx. simpl.
  destruct v as [z|s]; simpl in *; [by eauto |].
  destruct (list_index_elem s _ Hdom) as (k & -> & Hk). eexists. split; [done |].
  destruct Hlabels as [Hnil| <-]; [|lia]. rewrite Hnil in Hk. simpl in Hk. lia.
Qed.

Lemma getitem_in_range a d ds i :
  nd_wf a → shape a = d :: ds → 0 ≤ i < Z.of_nat d →
  (ds = [] ∧ ∃ v, getitem (PyArray a) i = Ok (PyFloat v))
  ∨ (ds ≠ [] ∧ ∃ a', getitem (PyArray a) i = Ok (PyArray a') ∧ shape a' = ds ∧ nd_wf a').
Proof.
  unfold nd_wf. intros Hwf Hs Hi. unfold getitem. rewrite Hs in *. simpl in Hwf.
  assert ((i <? 0) = false) as Hlt0 by (apply Z.ltb_ge; lia).
  assert ((Z.of_nat d <=? i) = false) as Hle by (apply Z.leb_gt; lia).
  rewrite Hlt0. simpl. rewrite Hlt0, Hle. simpl.
  assert (length (take (size_of ds) (drop (Z.to_nat i * size_of ds) (data a)))
          = size_of ds) as Hchunk.
  { rewrite length_take, length_drop, Hwf.
    assert (Z.to_nat i < d)%nat as Hlt by lia.
    assert (Z.to_nat i * size_of ds + size_of ds ≤ d * size_of ds)%nat; [nia | lia]. }
  destruct ds as [|d' ds].
  - left. split; [done |].
    destruct (take _ _) as [|v l]; [simpl in Hchunk; discriminate | simpl; eauto].
  - right. split; [done |]. eexists. by split_and!.
Qed.

Lemma eval_index_total h x rvs a :
  nd_wf a →
  Forall2 (λ d r, Z.of_nat d = RV.n_opts (the_rv h r)) (shape a) rvs →
  rvs ≠ [] →
  Forall (λ r, ∃ i, label_index h x r = Ok i ∧ 0 ≤ i < RV.n_opts (the_rv h r)) rvs →
  ∃ v, eval_index h x rvs (PyArray a) = Ok (PyFloat v).
Proof.
  intros Hwf Hshape Hne Hall. revert a Hwf Hshape Hne.
  induction Hall as [|r rvs (i & Hi & Hrange) Hall IH]; intros a Hwf Hshape Hne; [done |].
  rewrite eval_index_cons, (bind_Ok_l _ _ i Hi).
  destruct (shape a) as [|d ds] eqn:Hs; [by inversion Hshape |].
  apply Forall2_cons in Hshape as [Hd Hds].
  destruct (getitem_in_range a d ds i Hwf Hs) as [[-> [v Hv]] | [Hds' (a' & Ha' & Hs' & Hwf')]];
    [lia | |].
  - rewrite Hv. simpl. apply Forall2_nil_inv_l in Hds as ->. simpl. eauto.
  - rewrite Ha'. simpl. apply IH; [done | by rewrite Hs' |].
    intros ->. apply Forall2_nil_inv_r in Hds. done.
Qed.

Lemma Factor_eval_total h g x f :
  factor_wf h g f → covers h g x → ∃ v, Factor_eval h f x = Ok (PyFloat v).
Proof.
  intros (Hne & (b & Hb & Hshape & Hwf) & Hrvs) Hcov. unfold Factor_eval.
  assert (for_each (λ r, check_assigned x (the_rv h r)) (Factor._rvs f) = Ok tt) as ->.
  { apply for_each_Ok, Forall_forall. intros r Hr. unfold check_assigned.
    destruct (Hrvs r Hr) as [Hin _]. destruct (Hcov _ _ Hin) as (v & -> & Hdom).
    by rewrite (has_label_in_domain _ _ Hdom). }
  assert (when (Factor.debug f) (Ok tt) = Ok tt) as -> by by destruct (Factor.debug f).
  simpl. rewrite Hb.
  destruct (eval_index_total h x (Factor._rvs f) b Hwf Hshape Hne) as [v ->].
  - apply Forall_forall. intros r Hr. destruct (Hrvs r Hr) as [Hin Hlabels].
    destruct (Hcov _ _ Hin) as (v & Hv & Hdom). by eapply label_index_in_range.
  - simpl. exists v. by destruct (Factor.debug f).
Qed.

(** On a graph built in the documented order, [joint] returns on every
    valid assignment: each factor's [eval] yields a number, and the result
    is their product. *)
Lemma joint_total h g x :
  graph_wf h g → valid_assignment h g x →
  ∃ vs, Forall2 (λ f v, eval_restricted h x f = Ok (PyFloat v)) (Graph._factors g) vs
        ∧ Graph_joint h g x = Ok (fold_left PrimFloat.mul vs 1%float).
Proof.
  intros Hwf Hvalid.
  assert (∃ vs, Forall2 (λ f v, eval_restricted h x f = Ok (PyFloat v))
                        (Graph._factors g) vs) as [vs Hvs].
  { revert Hwf. unfold graph_wf. induction (Graph._factors g) as [|f fs IH]; intros Hwf.
    - exists []. constructor.
    - destruct IH as [vs Hvs]; [intros f' Hf'; apply Hwf; by right |].
      destruct (Factor_eval_total h g x (the_factor h f)) as [v Hv];
        [apply Hwf; left | by destruct Hvalid |].
      exists (v :: vs). constructor; [|done].
      unfold eval_restricted. by rewrite Factor_eval_restrict. }
  exists vs. split; [done |].
  rewrite (joint_valid h g x Hvalid). apply joint_loop_product.
  eapply Forall2_impl; [done |]. intros f v Hv. simpl in Hv. eauto.
Qed.

Example pyfac_graph_wf : graph_wf pyfac_heap pyfac_graph.
Proof.
  intros f Hf. change (Graph._factors pyfac_graph) with [0%nat; 1%nat] in Hf.
  apply elem_of_cons in Hf as [->|Hf]; [|apply list_elem_of_singleton in Hf as ->].
  - split_and!; [done | |].
    + eexists. split_and!; [reflexivity | repeat constructor | reflexivity].
    + intros r Hr. change (Factor._rvs (the_factor pyfac_heap 0)) with [1%nat] in Hr.
      apply list_elem_of_singleton in Hr as ->. split; [|by left].
      right. left.
  - split_and!; [done | |].
    + eexists. split_and!; [reflexivity | repeat constructor | reflexivity].
    + intros r Hr. change (Factor._rvs (the_factor pyfac_heap 1)) with [0%nat; 1%nat] in Hr.
      apply elem_of_cons in Hr as [->|Hr]; [|apply list_elem_of_singleton in Hr as ->].
      * split; [left | by left].
      * split; [right; left | by left].
Qed.

(** * Further properties of the module *)

(** ** [RV.get_int_label] *)

Lemma list_index_Some s l k :
  list_index s l = Some k ↔ l !! k = Some s ∧ ∀ j, (j < k)%nat → l !! j ≠ Some s.
Proof.
  revert k. induction l as [|s' l IH]; intros k; simpl.
  - split; [done | by intros [? _]].
  - case_bool_decide as Heq.
    + subst s'. split.
      * intros [= <-]. split; [done | intros j Hj; lia].
      * intros [Hk Hfirst]. destruct k as [|k]; [done |].
        by destruct (Hfirst 0%nat ltac:(lia)).
    + destruct k as [|k].
      * split; [by destruct (list_index s l) | intros [[= ?] _]; congruence].
      * transitivity (list_index s l = Some k).
        { destruct (list_index s l); simpl; split; congruence. }
        rewrite IH. simpl. split; intros [Hk Hfirst]; (split; [done |]).
        -- intros [|j] Hj; simpl; [congruence | apply Hfirst; lia].
        -- intros j Hj. apply (Hfirst (S j)). lia.
Qed.

Lemma list_index_None s l : list_index s l = None ↔ s ∉ l.
Proof.
  induction l as [|s' l IH]; simpl.
  - split; [intros _; apply not_elem_of_nil | done].
  - case_bool_decide as Heq.
    + subst. split; [done | intros Hn; destruct Hn; left].
    + rewrite not_elem_of_cons, <- IH.
      destruct (list_index s l); simpl.
      * split; [done | by intros [_ ?]].
      * split; [intros _; split; congruence | done].
Qed.

(** X1: on a string label, [get_int_label] returns the position of the
    label's first occurrence in [labels], and raises [ValueError] exactly
    when the label does not occur; whether the RV was built with labels or
    with debugging plays no part. *)
Theorem get_int_label_position (self : RV.t) (s : string) :
  match RV_get_int_label self (VStr s) with
  | Ok i => ∃ k, i = Z.of_nat k ∧ RV.labels self !! k = Some s
                 ∧ ∀ j, (j < k)%nat → RV.labels self !! j ≠ Some s
  | Raise e => e = ValueError ∧ s ∉ RV.labels self
  end.
Proof.
  unfold RV_get_int_label.
  destruct (list_index s (RV.labels self)) as [k|] eqn:Hk.
  - apply list_index_Some in Hk as [? ?]. eauto.
  - by apply list_index_None in Hk.
Qed.

(** X2: for an RV whose labels are pairwise distinct, the label at
    position [i] is accepted by [has_label] and [get_int_label] maps it
    back to [i], an index below the number of labels. *)
Theorem label_round_trip (self : RV.t) (i : nat) (s : string) :
  NoDup (RV.labels self) → RV.labels self !! i = Some s →
  RV_has_label self (VStr s) = Ok true
  ∧ RV_get_int_label self (VStr s) = Ok (Z.of_nat i)
  ∧ 0 ≤ Z.of_nat i < Z.of_nat (length (RV.labels self)).
Proof.
  intros Hnd Hi.
  assert (list_index s (RV.labels self) = Some i) as Hidx.
  { apply list_index_Some. split; [done |]. intros j Hj Hj'.
    assert (j = i) by (eapply NoDup_lookup; eauto). lia. }
  apply lookup_lt_Some in Hi as Hlt. split_and!; [| | lia | lia].
  - apply has_label_in_domain. simpl. by eapply list_elem_of_lookup_2.
  - unfold RV_get_int_label. by rewrite Hidx.
Qed.

Lemma label_round_trip_witness :
  RV_has_label (the_rv labelled_rv_heap 0) (VStr "sun") = Ok true
  ∧ RV_get_int_label (the_rv labelled_rv_heap 0) (VStr "sun") = Ok (Z.of_nat 1)
  ∧ 0 ≤ Z.of_nat 1 < Z.of_nat (length (RV.labels (the_rv labelled_rv_heap 0))).
Proof.
  apply (label_round_trip (the_rv labelled_rv_heap 0) 1 "sun").
  - change (RV.labels (the_rv labelled_rv_heap 0)) with ["rain"; "sun"].
    apply NoDup_cons. split; [by intros [=]%list_elem_of_singleton |].
    apply NoDup_singleton.
  - reflexivity.
Defined.

(** ** [Factor.eval] and [Graph.joint]: what makes them raise *)

Lemma has_label_check_Ok rv label :
  (ok ← RV_has_label rv label; py_assert ok) = Ok tt ↔ RV_has_label rv label = Ok true.
Proof.
  destruct (RV_has_label rv label) as [[]|e]; simpl; split; congruence.
Qed.

Lemma check_assigned_asserts x rv : asserts (check_assigned x rv).
Proof.
  unfold check_assigned. destruct (x !! RV.name rv); [|by right].
  apply has_label_check_asserts.
Qed.

Lemma eval_index_missing h x rvs r ret :
  r ∈ rvs → x !! RV.name (the_rv h r) = None →
  ∃ e, eval_index h x rvs ret = Raise e.
Proof.
  intros Hr Hx. revert ret. induction rvs as [|r' rvs IH]; intros ret.
  - by apply not_elem_of_nil in Hr.
  - rewrite eval_index_cons. destruct (decide (r' = r)) as [->|Hne].
    + unfold label_index. rewrite Hx. simpl. eauto.
    + apply elem_of_cons in Hr as [?|Hr]; [congruence |].
      destruct (label_index h x r') as [i|e]; simpl; [|by eauto].
      destruct (getitem ret i) as [ret'|e]; simpl; [|by eauto].
      by apply IH.
Qed.

(** X3: [eval] never returns a value for an assignment that lacks the name
    of one of the factor's attached RVs: with the factor's debug checks on
    it raises [AssertionError]; with them off it raises as well, and the
    error is [KeyError] when the missing RV is the first attached one. *)
Theorem eval_needs_every_attached_rv (h : Heap) (f : Factor.t) (x : assignment)
    (r : nat) :
  r ∈ Factor._rvs f → x !! RV.name (the_rv h r) = None →
  (∃ e, Factor_eval h f x = Raise e)
  ∧ (Factor.debug f = true → Factor_eval h f x = Raise AssertionError)
  ∧ (Factor.debug f = false → Factor._rvs f !! 0%nat = Some r →
     Factor_eval h f x = Raise KeyError).
Proof.
  intros Hr Hx.
  assert (Factor.debug f = true → Factor_eval h f x = Raise AssertionError) as Hdebug.
  { intros Hd. unfold Factor_eval. rewrite Hd. simpl.
    rewrite (asserts_not_Ok (for_each _ (Factor._rvs f))); [done | |].
    - apply for_each_asserts, Forall_forall. intros; apply check_assigned_asserts.
    - rewrite for_each_Ok, Forall_forall. intros Hall. specialize (Hall r Hr).
      unfold check_assigned in Hall. by rewrite Hx in Hall. }
  split_and!; [| done |].
  - destruct (Factor.debug f) eqn:Hd; [rewrite Hdebug; eauto |].
    unfold Factor_eval. rewrite Hd. simpl.
    destruct (eval_index_missing h x (Factor._rvs f) r
                (match Factor._belief f with Some b => PyArray b | None => PyNone end)
                Hr Hx) as [e ->]. simpl. eauto.
  - intros Hd Hhead. unfold Factor_eval. rewrite Hd. simpl.
    destruct (Factor._rvs f) as [|r' rvs]; [done |]. injection Hhead as ->.
    rewrite eval_index_cons. unfold label_index. by rewrite Hx.
Qed.

Lemma eval_needs_every_attached_rv_witness :
  (∃ e, Factor_eval single_heap (the_factor single_heap 0) ∅ = Raise e)
  ∧ (Factor.debug (the_factor single_heap 0) = true →
     Factor_eval single_heap (the_factor single_heap 0) ∅ = Raise AssertionError)
  ∧ (Factor.debug (the_factor single_heap 0) = false →
     Factor._rvs (the_factor single_heap 0) !! 0%nat = Some 0%nat →
     Factor_eval single_heap (the_factor single_heap 0) ∅ = Raise KeyError).
Proof.
  apply (eval_needs_every_attached_rv single_heap (the_factor single_heap 0) ∅ 0).
  - change (Factor._rvs (the_factor single_heap 0)) with [0%nat]. left.
  - reflexivity.
Defined.

Lemma check_key_Ok h g name label :
  check_key h g (name, label) = Ok tt
  ↔ ∃ r, dict_get (Graph._rvs g) name = Some r ∧ RV_has_label (the_rv h r) label = Ok true.
Proof.
  unfold check_key. simpl. destruct (dict_get (Graph._rvs g) name) as [r|].
  - rewrite has_label_check_Ok. split; [by eauto | by intros (? & [= <-] & ?)].
  - split; [done | by intros (? & ? & _)].
Qed.

Lemma check_rv_Ok h x name r :
  check_rv h x (name, r) = Ok tt
  ↔ ∃ label, x !! name = Some label ∧ RV_has_label (the_rv h r) label = Ok true.
Proof.
  unfold check_rv. simpl. destruct (x !! name) as [label|].
  - rewrite has_label_check_Ok. split; [by eauto | by intros (? & [= <-] & ?)].
  - split; [done | by intros (? & ? & _)].
Qed.

Lemma check_rv_asserts h x item : asserts (check_rv h x item).
Proof.
  unfold check_rv. destruct (x !! item.1); [|by right].
  apply has_label_check_asserts.
Qed.

(** X4: with the graph's debug checks on, [joint] either raises
    [AssertionError] or the assignment has passed the whole validation: it
    has as many entries as the graph has RVs, each of its keys names an RV
    that accepts the value, and every RV of the graph has an accepted
    entry; only then are the factors evaluated. *)
Theorem joint_validates_before_evaluating (h : Heap) (g : Graph.t) (x : assignment) :
  Graph.debug g = true →
  Graph_joint h g x = Raise AssertionError
  ∨ (size x = length (Graph._rvs g)
     ∧ (∀ name label, x !! name = Some label →
          ∃ r, dict_get (Graph._rvs g) name = Some r
               ∧ RV_has_label (the_rv h r) label = Ok true)
     ∧ (∀ name r, (name, r) ∈ Graph._rvs g →
          ∃ label, x !! name = Some label
                   ∧ RV_has_label (the_rv h r) label = Ok true)
     ∧ Graph_joint h g x = joint_loop h x (Graph._factors g) 1%float).
Proof.
  intros Hd. unfold Graph_joint. rewrite Hd. simpl.
  case_bool_decide as Hsize; simpl; [|by left].
  destruct (for_each_asserts (check_key h g) (map_to_list x)) as [Hk|Hk].
  { apply Forall_forall. intros; apply check_key_asserts. }
  2: { left. by rewrite Hk. }
  rewrite Hk. simpl.
  destruct (for_each_asserts (check_rv h x) (Graph._rvs g)) as [Hr|Hr].
  { apply Forall_forall. intros; apply check_rv_asserts. }
  2: { left. by rewrite Hr. }
  rewrite Hr. simpl. right. split_and!; [done | | | done].
  - intros name label Hx. rewrite for_each_Ok, Forall_forall in Hk.
    apply check_key_Ok, Hk, elem_of_map_to_list, Hx.
  - intros name r Hin. rewrite for_each_Ok, Forall_forall in Hr.
    by apply check_rv_Ok, Hr.
Qed.

Lemma joint_validates_before_evaluating_witness :
  Graph_joint single_heap single_graph {[ "r" := VInt 2 ]} = Raise AssertionError
  ∨ (size ({[ "r" := VInt 2 ]} : assignment) = length (Graph._rvs single_graph)
     ∧ (∀ name label, ({[ "r" := VInt 2 ]} : assignment) !! name = Some label →
          ∃ r, dict_get (Graph._rvs single_graph) name = Some r
               ∧ RV_has_label (the_rv single_heap r) label = Ok true)
     ∧ (∀ name r, (name, r) ∈ Graph._rvs single_graph →
          ∃ label, ({[ "r" := VInt 2 ]} : assignment) !! name = Some label
                   ∧ RV_has_label (the_rv single_heap r) label = Ok true)
     ∧ Graph_joint single_heap single_graph {[ "r" := VInt 2 ]}
       = joint_loop single_heap {[ "r" := VInt 2 ]} (Graph._factors single_graph) 1%float).
Proof.
  apply (joint_validates_before_evaluating single_heap single_graph {[ "r" := VInt 2 ]}).
  reflexivity.
Defined.

(** ** [_bf_bj_recurse] on an RV without values *)

Lemma bj_loop_none rec assigned name vals :
  (∀ a, rec a = Ok (None, 0%float)) →
  bj_loop rec assigned name vals (None, 0%float) = Ok (None, 0%float).
Proof.
  intros Hrec. induction vals as [|val vals IH]; simpl; [done |].
  rewrite Hrec. simpl. exact IH.
Qed.

Lemma bf_bj_recurse_empty_domain h g todo r :
  r ∈ todo → RV.n_opts (the_rv h r) ≤ 0 →
  ∀ assigned, Graph_bf_bj_recurse h g assigned todo = Ok (None, 0%float).
Proof.
  intros Hr Hn. induction todo as [|r' todo IH]; intros assigned.
  - by apply not_elem_of_nil in Hr.
  - cbn [Graph_bf_bj_recurse]. destruct (decide (r' = r)) as [->|Hne].
    + unfold py_range, seqZ. by replace (Z.to_nat (RV.n_opts (the_rv h r))) with 0%nat by lia.
    + apply elem_of_cons in Hr as [?|Hr]; [congruence |].
      apply bj_loop_none. intros a. by apply IH.
Qed.

(** X5: when some RV of the graph has no value to take ([n_opts <= 0]),
    [bf_best_joint] returns [(None, 0.0)] whatever the factors are: [joint]
    is never evaluated, so nothing can raise. *)
Theorem bf_best_joint_empty_domain (h : Heap) (g : Graph.t) (name : string) (r : nat) :
  (name, r) ∈ Graph._rvs g → RV.n_opts (the_rv h r) ≤ 0 →
  Graph_bf_best_joint h g = Ok (None, 0%float).
Proof.
  intros Hin Hn. unfold Graph_bf_best_joint.
  apply (bf_bj_recurse_empty_domain h g _ r); [|done].
  apply list_elem_of_fmap. by exists (name, r).
Qed.

Lemma bf_best_joint_empty_domain_witness :
  Graph_bf_best_joint empty_domain_heap empty_domain_graph_g = Ok (None, 0%float).
Proof.
  apply (bf_best_joint_empty_domain empty_domain_heap empty_domain_graph_g "b" 1).
  - change (Graph._rvs empty_domain_graph_g) with [("a", 0%nat); ("b", 1%nat)].
    right. left.
  - change (RV.n_opts (the_rv empty_domain_heap 1)) with 0. lia.
Defined.

(** ** [sorted] and [Graph._sorted_nodes] *)

Section py_sorted.
Context {A : Type} (key : A → nat).

Local Abbreviation key_le := (λ a b : A, (key a ≤ key b)%nat).

Lemma insert_by_perm a l : insert_by key a l ≡ₚ a :: l.
Proof.
  induction l as [|b l IH]; simpl; [done |].
  destruct (key a <=? key b)%nat; [done |].
  rewrite IH. apply Permutation_swap.
Qed.

Lemma py_sorted_perm l : py_sorted key l ≡ₚ l.
Proof.
  induction l as [|a l IH]; simpl; [done |].
  fold (py_sorted key l). by rewrite insert_by_perm, IH.
Qed.

Lemma insert_by_sorted a l :
  StronglySorted key_le l → StronglySorted key_le (insert_by key a l).
Proof.
  induction 1 as [|b l Hl IH Hb]; simpl.
  - repeat constructor.
  - destruct (Nat.leb_spec (key a) (key b)) as [Hle|Hlt].
    + constructor; [by constructor |]. constructor; [done |].
      eapply Forall_impl; [exact Hb |]. simpl. lia.
    + constructor; [done |]. rewrite insert_by_perm. constructor; [lia | done].
Qed.

Lemma py_sorted_sorted l : StronglySorted key_le (py_sorted key l).
Proof.
  induction l as [|a l IH]; simpl; [constructor |]. by apply insert_by_sorted.
Qed.

Lemma insert_by_filter (k : nat) a l :
  filter (λ b, key b = k) (insert_by key a l) = filter (λ b, key b = k) (a :: l).
Proof.
  induction l as [|b l IH]; simpl; [done |].
  destruct (Nat.leb_spec (key a) (key b)) as [Hle|Hlt]; [done |].
  rewrite (filter_cons _ b), IH, !filter_cons.
  repeat case_decide; try done. lia.
Qed.

Lemma py_sorted_stable (k : nat) l :
  filter (λ b, key b = k) (py_sorted key l) = filter (λ b, key b = k) l.
Proof.
  induction l as [|a l IH]; simpl; [done |]. fold (py_sorted key l).
  by rewrite insert_by_filter, !filter_cons, IH.
Qed.

End py_sorted.

(** X6: [_sorted_nodes] returns every RV and every factor of the graph
    exactly as often as the graph holds it, in ascending order of
    [n_edges]; nodes with the same number of edges keep the order of
    [rvs + facs], RVs before factors and factors in the order they were
    added. *)
Theorem sorted_nodes_sorted_stable (h : Heap) (g : Graph.t) :
  Graph_sorted_nodes h g
    ≡ₚ ((RVNode <$> (Graph._rvs g).*2) ++ (FactorNode <$> Graph._factors g))%list
  ∧ StronglySorted (λ a b, (node_n_edges h a ≤ node_n_edges h b)%nat)
      (Graph_sorted_nodes h g)
  ∧ ∀ k, filter (λ n, node_n_edges h n = k) (Graph_sorted_nodes h g)
         = (filter (λ n, node_n_edges h n = k) (RVNode <$> (Graph._rvs g).*2)
            ++ filter (λ n, node_n_edges h n = k) (FactorNode <$> Graph._factors g))%list.
Proof.
  unfold Graph_sorted_nodes. split_and!.
  - apply py_sorted_perm.
  - apply py_sorted_sorted.
  - intros k. by rewrite py_sorted_stable, filter_app.
Qed.

(** ** [Graph.add_factor] *)

Lemma py_sorted_id_eq (l1 l2 : list nat) :
  py_sorted id l1 = py_sorted id l2 ↔ l1 ≡ₚ l2.
Proof.
  split.
  - intros Heq. by rewrite <- (py_sorted_perm id l1), Heq, py_sorted_perm.
  - intros Hperm.
    apply (Sorted_unique (λ a b : nat, (a ≤ b)%nat)).
    + apply StronglySorted_Sorted, (py_sorted_sorted id).
    + apply StronglySorted_Sorted, (py_sorted_sorted id).
    + by rewrite !py_sorted_perm.
Qed.

Lemma for_each_assert_Ok {A} (p : A → bool) (l : list A) :
  for_each (λ a, py_assert (p a)) l = Ok tt ↔ Forall (λ a, p a = true) l.
Proof.
  rewrite for_each_Ok. apply Forall_proper; [|done]. intros a. apply py_assert_true.
Qed.

Lemma for_each_assert_asserts {A} (p : A → bool) (l : list A) :
  asserts (for_each (λ a, py_assert (p a)) l).
Proof. apply for_each_asserts, Forall_forall. intros; apply py_assert_asserts. Qed.

(** X7: [add_factor] appends the factor to the graph's factor list and
    changes nothing else. It raises, and then [AssertionError], exactly
    when the graph's debug checks are on and either the factor is already
    registered or a registered factor is attached to the same RVs, in
    whatever order they were attached. *)
Theorem add_factor_rejects_same_neighbourhood (h : Heap) (g : Graph.t) (f : nat) :
  match Graph_add_factor h g f with
  | Ok g' =>
      g' = Graph.mk (Graph.debug g) (Graph._rvs g) (Graph._factors g ++ [f])%list
      ∧ (Graph.debug g = true →
           (f ∉ Graph._factors g)
           ∧ ∀ f', f' ∈ Graph._factors g →
               ¬ Factor._rvs (the_factor h f') ≡ₚ Factor._rvs (the_factor h f))
  | Raise e =>
      e = AssertionError ∧ Graph.debug g = true
      ∧ (f ∈ Graph._factors g
         ∨ ∃ f', f' ∈ Graph._factors g
                 ∧ Factor._rvs (the_factor h f') ≡ₚ Factor._rvs (the_factor h f))
  end.
Proof.
  unfold Graph_add_factor. destruct (Graph.debug g); simpl; [|done].
  case_bool_decide as Hin; simpl; [by auto |].
  match goal with |- context [for_each ?b ?l] =>
    destruct (for_each_assert_asserts
                (λ f', negb (bool_decide
                   (py_sorted id (Factor._rvs (the_factor h f))
                    = py_sorted id (Factor._rvs (the_factor h f'))))) l) as [Hall|Hall]
  end.
  - rewrite Hall. simpl. split; [done |]. intros _. split; [done |].
    intros f' Hf' Hperm. rewrite for_each_assert_Ok, Forall_forall in Hall.
    specialize (Hall f' Hf'). apply negb_true_iff, bool_decide_eq_false in Hall.
    apply Hall, py_sorted_id_eq. by symmetry.
  - rewrite Hall. simpl. split_and!; [done.. |]. right.
    assert (¬ Forall (λ f', negb (bool_decide
                   (py_sorted id (Factor._rvs (the_factor h f))
                    = py_sorted id (Factor._rvs (the_factor h f')))) = true)
              (Graph._factors g)) as Hnot.
    { rewrite <- for_each_assert_Ok. by rewrite Hall. }
    apply not_Forall_Exists in Hnot; [|apply _].
    apply Exists_exists in Hnot as (f' & Hf' & Hsame). exists f'. split; [done |].
    apply not_true_iff_false, negb_false_iff, bool_decide_eq_true in Hsame.
    symmetry. by apply py_sorted_id_eq.
Qed.

(** ** [Graph.add_rv] *)

Lemma dict_set_get {V} (d : list (string * V)) k v : dict_get (dict_set d k v) k = Some v.
Proof.
  induction d as [|[k' v'] d IH]; simpl.
  - by rewrite bool_decide_eq_true_2.
  - case_bool_decide as Hk; simpl.
    + by rewrite bool_decide_eq_true_2.
    + by rewrite bool_decide_eq_false_2.
Qed.

Lemma dict_set_get_ne {V} (d : list (string * V)) k k' v :
  k' ≠ k → dict_get (dict_set d k v) k' = dict_get d k'.
Proof.
  intros Hne. induction d as [|[k0 v0] d IH]; simpl.
  - by rewrite bool_decide_eq_false_2.
  - case_bool_decide as Hk; simpl.
    + subst k0. by rewrite !bool_decide_eq_false_2.
    + by rewrite IH.
Qed.

Lemma dict_set_absent {V} (d : list (string * V)) k v :
  dict_get d k = None → dict_set d k v = (d ++ [(k, v)])%list.
Proof.
  induction d as [|[k' v'] d IH]; simpl; [done |].
  case_bool_decide as Hk; [done |]. intros Hd. by rewrite IH.
Qed.

Lemma dict_set_present {V} (d : list (string * V)) k v :
  is_Some (dict_get d k) → (dict_set d k v).*1 = d.*1.
Proof.
  induction d as [|[k' v'] d IH]; simpl; [by intros [? ?] |].
  case_bool_decide as Hk; csimpl; [by subst |]. intros Hd. f_equal. by apply IH.
Qed.

Lemma dict_get_None {V} (d : list (string * V)) k : dict_get d k = None ↔ k ∉ d.*1.
Proof.
  induction d as [|[k' v'] d IH]; simpl.
  - split; [intros _; apply not_elem_of_nil | done].
  - rewrite not_elem_of_cons. case_bool_decide as Hk.
    + split; [done | by intros [? _]].
    + rewrite IH. split; [by intros ?; split | by intros [_ ?]].
Qed.

Lemma elem_of_dict_set {V} (d : list (string * V)) k v k' v' :
  (k', v') ∈ dict_set d k v → (k', v') = (k, v) ∨ (k', v') ∈ d.
Proof.
  induction d as [|[k0 v0] d IH]; simpl.
  - intros ->%list_elem_of_singleton. by left.
  - case_bool_decide as Hk.
    + intros [->|Hin]%elem_of_cons; [by left | right; by right].
    + intros [->|Hin]%elem_of_cons; [right; by left |].
      destruct (IH Hin) as [->|?]; [by left | right; by right].
Qed.

(** X8: [add_rv] stores the RV under its name and leaves every other key,
    the factors and the debug flag as they were. A name that is new adds
    one entry to the dict. A name that is taken makes it raise
    [AssertionError] when the graph's debug checks are on, and nothing
    else makes it raise; with the checks off the RV of that name is
    replaced and the dict has the keys it had. *)
Theorem add_rv_registers_under_name (h : Heap) (g : Graph.t) (r : nat) :
  match Graph_add_rv h g r with
  | Ok g' =>
      dict_get (Graph._rvs g') (RV.name (the_rv h r)) = Some r
      ∧ (∀ k, k ≠ RV.name (the_rv h r) →
           dict_get (Graph._rvs g') k = dict_get (Graph._rvs g) k)
      ∧ Graph._factors g' = Graph._factors g
      ∧ Graph.debug g' = Graph.debug g
      ∧ (dict_get (Graph._rvs g) (RV.name (the_rv h r)) = None →
           Graph._rvs g' ≡ₚ (RV.name (the_rv h r), r) :: Graph._rvs g)
      ∧ (is_Some (dict_get (Graph._rvs g) (RV.name (the_rv h r))) →
           Graph.debug g = false ∧ (Graph._rvs g').*1 ≡ₚ (Graph._rvs g).*1)
  | Raise e =>
      e = AssertionError ∧ Graph.debug g = true
      ∧ is_Some (dict_get (Graph._rvs g) (RV.name (the_rv h r)))
  end.
Proof.
  unfold Graph_add_rv.
  assert (∀ g', g' = Graph.mk (Graph.debug g)
                       (dict_set (Graph._rvs g) (RV.name (the_rv h r)) r)
                       (Graph._factors g) →
            dict_get (Graph._rvs g') (RV.name (the_rv h r)) = Some r
            ∧ (∀ k, k ≠ RV.name (the_rv h r) →
                 dict_get (Graph._rvs g') k = dict_get (Graph._rvs g) k)
            ∧ Graph._factors g' = Graph._factors g
            ∧ Graph.debug g' = Graph.debug g
            ∧ (dict_get (Graph._rvs g) (RV.name (the_rv h r)) = None →
                 Graph._rvs g' ≡ₚ (RV.name (the_rv h r), r) :: Graph._rvs g)
            ∧ (is_Some (dict_get (Graph._rvs g) (RV.name (the_rv h r))) →
                 (Graph._rvs g').*1 ≡ₚ (Graph._rvs g).*1)) as Hstored.
  { intros g' ->. simpl. split_and!; [| | done | done | |].
    - apply dict_set_get.
    - intros k Hk. by apply dict_set_get_ne.
    - intros Hnone. rewrite dict_set_absent by done. symmetry. apply Permutation_cons_append.
    - intros Hsome. by rewrite dict_set_present. }
  destruct (Graph.debug g) eqn:Hd; simpl.
  - case_bool_decide as Hin; simpl; [by auto |].
    destruct (Hstored _ eq_refl) as (? & ? & ? & ? & ? & ?). simpl in *.
    split_and!; [done.. |]. by intros ?.
  - destruct (Hstored _ eq_refl) as (? & ? & ? & ? & ? & ?). simpl in *.
    split_and!; [done.. |]. auto.
Qed.

(** X9: [add_rv] keeps the invariant of the graph's dict: no name is held
    twice and every RV is stored under its own name, so the RVs of the
    graph have pairwise distinct names. *)
Theorem add_rv_keeps_names_distinct (h : Heap) (g g' : Graph.t) (r : nat) :
  keyed_by_name h g → Graph_add_rv h g r = Ok g' →
  keyed_by_name h g' ∧ NoDup (graph_rv_names h g').
Proof.
  intros [Hnd Hkeys] Hadd.
  assert (keyed_by_name h g') as Hinv.
  { unfold Graph_add_rv in Hadd. apply bind_Ok in Hadd as (_ & _ & [= <-]).
    split; simpl.
    - destruct (dict_get (Graph._rvs g) (RV.name (the_rv h r))) as [r'|] eqn:Hget.
      + by rewrite dict_set_present.
      + rewrite dict_set_absent, fmap_app by done. apply NoDup_app. split_and!; [done | |].
        * intros k Hk [->|[]%not_elem_of_nil]%elem_of_cons. by apply dict_get_None in Hget.
        * apply NoDup_singleton.
    - intros k r' [[= -> ->]|Hin]%elem_of_dict_set; [done | by apply Hkeys]. }
  split; [done |]. destruct Hinv as [Hnd' Hkeys'].
  unfold graph_rv_names.
  replace ((λ r0, RV.name (the_rv h r0)) <$> (Graph._rvs g').*2) with (Graph._rvs g').*1; [done |].
  rewrite <- list_fmap_compose. apply Forall_fmap_ext, Forall_forall.
  intros [k r'] Hin. simpl. by apply Hkeys'.
Qed.

Lemma add_rv_keeps_names_distinct_witness :
  keyed_by_name single_heap factorless_graph
  ∧ NoDup (graph_rv_names single_heap factorless_graph).
Proof.
  apply (add_rv_keeps_names_distinct single_heap (Graph_new DEBUG_DEFAULT) factorless_graph 0).
  - split; simpl; [apply NoDup_nil_2 | by intros k r ?%not_elem_of_nil].
  - reflexivity.
Defined.

(** ** Message passing on any graph *)

Lemma comprehension_fmap {A B} (body : A → result B) (g : A → B) (l : list A) :
  (∀ a, a ∈ l → body a = Ok (g a)) → comprehension body l = Ok (g <$> l).
Proof.
  induction l as [|a l IH]; intros Hb; simpl; [done |].
  rewrite Hb by left. simpl. rewrite IH; [done |]. intros a' Ha'. apply Hb. by right.
Qed.

Lemma comprehension_Ok_all {A B} (body : A → result B) (l : list A) (out : list B) :
  comprehension body l = Ok out → Forall2 (λ a b, body a = Ok b) l out.
Proof.
  revert out. induction l as [|a l IH]; simpl; intros out.
  - intros [= <-]. constructor.
  - intros (b & Hb & (bs & Hbs & [= <-])%bind_Ok)%bind_Ok. constructor; [done | by apply IH].
Qed.

Lemma comprehension_Raise {A B} (body : A → result B) (l : list A) (e : exn) :
  comprehension body l = Raise e → ∃ a, a ∈ l ∧ body a = Raise e.
Proof.
  induction l as [|a l IH]; simpl; [done |].
  destruct (body a) as [b|e'] eqn:Hb; simpl.
  - destruct (comprehension body l) as [bs|e'] eqn:Hbs; simpl; [done |].
    intros [= ->]. destruct (IH eq_refl) as (a' & Ha' & Hraise).
    exists a'. split; [by right | done].
  - intros [= ->]. exists a. split; [left | done].
Qed.

Lemma np_ones_Raise n e : np_ones n = Raise e → e = ValueError ∧ n < 0.
Proof.
  unfold np_ones. destruct (Z.ltb_spec n 0); [|done]. by intros [= <-].
Qed.

(** X10: [init_lbp] replaces the outgoing messages, whatever they were,
    by one all-ones vector per edge, of the length of the RV at that edge,
    and touches nothing else. An RV's [init_lbp] raises [ValueError]
    exactly when it has a factor and a negative [n_opts]; a factor's does
    so exactly when one of its RVs has a negative [n_opts]. *)
Theorem init_lbp_uniform (h : Heap) (rv : RV.t) (fac : Factor.t) :
  match RV_init_lbp rv with
  | Ok rv' => rv' = RV_uniform rv ∧ (0 ≤ RV.n_opts rv ∨ RV._factors rv = [])
  | Raise e => e = ValueError ∧ RV.n_opts rv < 0 ∧ RV._factors rv ≠ []
  end
  ∧ match Factor_init_lbp h fac with
    | Ok fac' =>
        fac' = Factor_uniform h fac
        ∧ Forall (λ r, 0 ≤ RV.n_opts (the_rv h r)) (Factor._rvs fac)
    | Raise e =>
        e = ValueError ∧ Exists (λ r, RV.n_opts (the_rv h r) < 0) (Factor._rvs fac)
    end.
Proof.
  split.
  - unfold RV_init_lbp, RV_uniform.
    destruct (comprehension _ (RV._factors rv)) as [out|e] eqn:Hout; simpl.
    + destruct (decide (0 ≤ RV.n_opts rv)) as [Hn|Hn].
      * rewrite (comprehension_const _ (replicate (Z.to_nat (RV.n_opts rv)) 1%float)) in Hout.
        -- injection Hout as <-. auto.
        -- intros _ _. by apply np_ones_nonneg.
      * destruct (RV._factors rv) as [|f fs]; simpl in *.
        -- injection Hout as <-. auto.
        -- apply bind_Ok in Hout as (m & Hm & _). unfold np_ones in Hm.
           by rewrite (proj2 (Z.ltb_lt _ 0)) in Hm by lia.
    + apply comprehension_Raise in Hout as (f & Hf & [-> ?]%np_ones_Raise).
      split_and!; [done.. |]. intros Hnil. rewrite Hnil in Hf. by apply not_elem_of_nil in Hf.
  - unfold Factor_init_lbp, Factor_uniform.
    destruct (comprehension _ (Factor._rvs fac)) as [out|e] eqn:Hout; simpl.
    + assert (Forall (λ r, 0 ≤ RV.n_opts (the_rv h r)) (Factor._rvs fac)) as Hall.
      { apply comprehension_Ok_all in Hout. clear -Hout.
        induction Hout as [|r m rs ms Hm _ IH]; constructor; [|done].
        unfold np_ones in Hm. by destruct (Z.ltb_spec (RV.n_opts (the_rv h r)) 0). }
      split; [|done].
      rewrite (comprehension_fmap _
                 (λ r, replicate (Z.to_nat (RV.n_opts (the_rv h r))) 1%float)) in Hout.
      * by injection Hout as <-.
      * rewrite Forall_forall in Hall. intros r Hr. by apply np_ones_nonneg, Hall.
    + apply comprehension_Raise in Hout as (r & Hr & [-> ?]%np_ones_Raise).
      split; [done |]. apply Exists_exists. by exists r.
Qed.

Lemma py_sum_bools_true k : py_sum_bools (replicate k true) = Z.of_nat k.
Proof.
  unfold py_sum_bools. f_equal. induction k as [|k IH]; [done |].
  cbn [replicate]. rewrite filter_cons_True by done. cbn [length]. by rewrite IH.
Qed.

Lemma rv_send_uniform (n_opts : Z) (k : nat) idx :
  0 ≤ n_opts → Forall (λ i, i < k)%nat idx →
  ∀ convg,
    rv_send n_opts (replicate (Z.to_nat n_opts) 1%float)
      (replicate k (replicate (Z.to_nat n_opts) 1%float))
      (replicate k (replicate (Z.to_nat n_opts) 1%float)) idx
      (replicate k (replicate (Z.to_nat n_opts) 1%float)) convg
    = Ok (replicate k (replicate (Z.to_nat n_opts) 1%float), convg).
Proof.
  intros Hn Hidx. induction Hidx as [|i idx Hi _ IH]; intros convg; [done |].
  cbn [rv_send]. rewrite lookup_replicate_2 by done. simpl.
  rewrite broadcast2_same_length by done. simpl.
  rewrite (zip_with_ones PrimFloat.div) by done.
  rewrite bool_decide_eq_true_2 by (rewrite length_replicate; lia). simpl.
  rewrite list_insert_id by (by apply lookup_replicate_2).
  destruct convg; simpl; [|apply IH].
  unfold np_isclose. rewrite broadcast2_same_length by done. simpl.
  rewrite zip_with_replicate, py_sum_bools_true, Z2Nat.id, Z.eqb_refl by done.
  apply IH.
Qed.

Lemma RV_recompute_outgoing_uniform h rv :
  0 ≤ RV.n_opts rv →
  RV_recompute_outgoing h (RV_uniform rv) = Ok (RV_uniform rv, true).
Proof.
  intros Hn. unfold RV_recompute_outgoing, RV_uniform, RV_set_outgoing.
  cbn [RV._outgoing RV.debug RV.n_opts RV._factors].
  assert (∀ o : list vec, when (RV.debug rv) (py_assert (bool_decide (is_Some (Some o))))
                          = Ok tt) as ->.
  { intros o. by destruct (RV.debug rv). }
  simpl. rewrite np_ones_nonneg by done. simpl.
  rewrite (comprehension_const _ (replicate (Z.to_nat (RV.n_opts rv)) 1%float)).
  - simpl. rewrite rv_send_uniform; [done | done |].
    apply Forall_forall. intros i Hi%elem_of_seq. lia.
  - intros f _. unfold Factor_get_message_for. simpl. rewrite np_ones_nonneg by done. simpl.
    destruct (RV.debug rv); simpl; [|done].
    rewrite bool_decide_eq_true_2; [done |]. rewrite length_replicate. lia.
Qed.

(** X11: on the messages [init_lbp] leaves, an RV's [recompute_outgoing]
    stores the same messages again and reports convergence, whichever
    factors the RV is attached to and whatever their beliefs are. *)
Theorem recompute_outgoing_fixed_point (h : Heap) (rv rv' : RV.t) :
  0 ≤ RV.n_opts rv → RV_init_lbp rv = Ok rv' →
  RV_recompute_outgoing h rv' = Ok (rv', true).
Proof.
  intros Hn Hinit.
  assert (RV_init_lbp rv = Ok (RV_uniform rv)) as Heq.
  { unfold RV_init_lbp, RV_uniform.
    rewrite (comprehension_const _ (replicate (Z.to_nat (RV.n_opts rv)) 1%float)); [done |].
    intros _ _. by apply np_ones_nonneg. }
  rewrite Heq in Hinit. injection Hinit as <-. by apply RV_recompute_outgoing_uniform.
Qed.

Lemma recompute_outgoing_fixed_point_witness :
  RV_recompute_outgoing single_heap ready_rv = Ok (ready_rv, true).
Proof.
  apply (recompute_outgoing_fixed_point single_heap (the_rv single_heap 0) ready_rv).
  - change (RV.n_opts (the_rv single_heap 0)) with 2. lia.
  - reflexivity.
Defined.

Lemma store_rv_same h r : store_rv h r (the_rv h r) = h.
Proof.
  destruct h as [rvs facs]. unfold store_rv, the_rv. simpl. f_equal.
  destruct (rvs !! r) as [x|] eqn:Hr.
  - apply list_insert_id. by rewrite (list_lookup_total_correct _ _ _ Hr).
  - apply list_insert_ge. by apply lookup_ge_None.
Qed.

Lemma store_factor_same h f : store_factor h f (the_factor h f) = h.
Proof.
  destruct h as [rvs facs]. unfold store_factor, the_factor. simpl. f_equal.
  destruct (facs !! f) as [x|] eqn:Hf.
  - apply list_insert_id. by rewrite (list_lookup_total_correct _ _ _ Hf).
  - apply list_insert_ge. by apply lookup_ge_None.
Qed.

Lemma messages_initialised_nil h : messages_initialised h [] h.
Proof.
  split; intros i; rewrite bool_decide_eq_false_2 by apply not_elem_of_nil;
    by rewrite option_fmap_id.
Qed.

Lemma messages_initialised_ext h nodes1 nodes2 h' :
  (∀ n, n ∈ nodes1 ↔ n ∈ nodes2) →
  messages_initialised h nodes1 h' → messages_initialised h nodes2 h'.
Proof.
  intros Hsame [Hrv Hfac]. split.
  - intros r. rewrite Hrv. by rewrite (bool_decide_ext _ _ (Hsame (RVNode r))).
  - intros f. rewrite Hfac. by rewrite (bool_decide_ext _ _ (Hsame (FactorNode f))).
Qed.

Section initialised_heap.
Context (h hc : Heap) (nodes : list node).
Context (Hinv : messages_initialised h nodes hc).

Lemma initialised_rv_lt r :
  (r < length (rv_objs hc))%nat ↔ (r < length (rv_objs h))%nat.
Proof using Hinv.
  destruct Hinv as [Hrv _]. by rewrite <- !lookup_lt_is_Some, Hrv, fmap_is_Some.
Qed.

Lemma initialised_factor_lt f :
  (f < length (factor_objs hc))%nat ↔ (f < length (factor_objs h))%nat.
Proof using Hinv.
  destruct Hinv as [_ Hfac]. by rewrite <- !lookup_lt_is_Some, Hfac, fmap_is_Some.
Qed.

Lemma initialised_the_rv r :
  the_rv hc r = the_rv h r ∨ the_rv hc r = RV_uniform (the_rv h r).
Proof using Hinv.
  destruct Hinv as [Hrv _]. unfold the_rv. rewrite !list_lookup_total_alt, Hrv.
  destruct (rv_objs h !! r); simpl; [|by left].
  case_bool_decide; [by right | by left].
Qed.

Lemma initialised_the_factor f :
  the_factor hc f = the_factor h f ∨ the_factor hc f = Factor_uniform h (the_factor h f).
Proof using Hinv.
  destruct Hinv as [_ Hfac]. unfold the_factor. rewrite !list_lookup_total_alt, Hfac.
  destruct (factor_objs h !! f); simpl; [|by left].
  case_bool_decide; [by right | by left].
Qed.

Lemma initialised_the_rv_in r :
  RVNode r ∈ nodes → (r < length (rv_objs h))%nat →
  the_rv hc r = RV_uniform (the_rv h r).
Proof using Hinv.
  intros Hin Hlt. destruct Hinv as [Hrv _]. unfold the_rv.
  rewrite !list_lookup_total_alt, Hrv.
  destruct (lookup_lt_is_Some_2 _ _ Hlt) as [x ->]. simpl.
  by rewrite bool_decide_eq_true_2.
Qed.

Lemma initialised_n_opts r : RV.n_opts (the_rv hc r) = RV.n_opts (the_rv h r).
Proof using Hinv. by destruct (initialised_the_rv r) as [-> | ->]. Qed.

Lemma initialised_factor_rvs f :
  Factor._rvs (the_factor hc f) = Factor._rvs (the_factor h f).
Proof using Hinv. by destruct (initialised_the_factor f) as [-> | ->]. Qed.

Lemma node_init_lbp_step n :
  node_runnable h n →
  ∃ hc', node_init_lbp hc n = Ok hc' ∧ messages_initialised h (n :: nodes) hc'.
Proof using Hinv.
  destruct n as [r|f]; simpl.
  - intros [Hlt Hn].
    assert (RV_init_lbp (the_rv hc r) = Ok (RV_uniform (the_rv h r))) as ->.
    { assert (∀ rv, 0 ≤ RV.n_opts rv → RV_init_lbp rv = Ok (RV_uniform rv)) as Hinit.
      { intros rv Hrv. unfold RV_init_lbp, RV_uniform.
        rewrite (comprehension_const _ (replicate (Z.to_nat (RV.n_opts rv)) 1%float)); [done |].
        intros _ _. by apply np_ones_nonneg. }
      destruct (initialised_the_rv r) as [-> | ->]; by rewrite Hinit. }
    simpl. eexists. split; [done |]. destruct Hinv as [Hrv Hfac]. split; simpl.
    + intros r'. destruct (decide (r' = r)) as [->|Hne].
      * rewrite list_lookup_insert_eq by by apply initialised_rv_lt.
        rewrite bool_decide_eq_true_2 by left.
        by rewrite (list_lookup_lookup_total_lt _ _ Hlt).
      * rewrite list_lookup_insert_ne by done. rewrite Hrv.
        rewrite (bool_decide_ext (RVNode r' ∈ RVNode r :: nodes) (RVNode r' ∈ nodes)); [done |].
        rewrite elem_of_cons. split; [intros [[=]|?]; done | by right].
    + intros f. rewrite Hfac.
      rewrite (bool_decide_ext (FactorNode f ∈ RVNode r :: nodes) (FactorNode f ∈ nodes)); [done |].
      rewrite elem_of_cons. split; [intros [[=]|?]; done | by right].
  - intros [Hlt Hn].
    assert (Factor_init_lbp hc (the_factor hc f) = Ok (Factor_uniform h (the_factor h f))) as ->.
    { unfold Factor_init_lbp. rewrite initialised_factor_rvs.
      rewrite (comprehension_fmap _
                 (λ r, replicate (Z.to_nat (RV.n_opts (the_rv h r))) 1%float)).
      - simpl. by destruct (initialised_the_factor f) as [-> | ->].
      - rewrite Forall_forall in Hn. intros r Hr. rewrite initialised_n_opts.
        by apply np_ones_nonneg, Hn. }
    simpl. eexists. split; [done |]. destruct Hinv as [Hrv Hfac]. split; simpl.
    + intros r. rewrite Hrv.
      rewrite (bool_decide_ext (RVNode r ∈ FactorNode f :: nodes) (RVNode r ∈ nodes)); [done |].
      rewrite elem_of_cons. split; [intros [[=]|?]; done | by right].
    + intros f'. destruct (decide (f' = f)) as [->|Hne].
      * rewrite list_lookup_insert_eq by by apply initialised_factor_lt.
        rewrite bool_decide_eq_true_2 by left.
        by rewrite (list_lookup_lookup_total_lt _ _ Hlt).
      * rewrite list_lookup_insert_ne by done. rewrite Hfac.
        rewrite (bool_decide_ext (FactorNode f' ∈ FactorNode f :: nodes)
                   (FactorNode f' ∈ nodes)); [done |].
        rewrite elem_of_cons. split; [intros [[=]|?]; done | by right].
Qed.

Lemma lbp_sweep_initialised todo :
  Forall (node_runnable h) todo → (∀ n, n ∈ todo → n ∈ nodes) →
  ∀ converged, lbp_sweep hc todo converged = Ok (hc, converged).
Proof using Hinv.
  induction 1 as [|n todo Hn _ IH]; intros Hsub converged; [done |].
  cbn [lbp_sweep].
  assert (node_recompute_outgoing hc n = Ok (hc, true)) as ->.
  { destruct n as [r|f]; simpl.
    - destruct Hn as [Hlt Hn].
      pose proof (initialised_the_rv_in r (Hsub _ (list_elem_of_here _ _)) Hlt) as Hr.
      rewrite Hr, RV_recompute_outgoing_uniform by done. simpl.
      by rewrite <- Hr, store_rv_same.
    - by rewrite store_factor_same. }
  simpl. rewrite andb_true_r. apply IH. intros n' Hn'. apply Hsub. by right.
Qed.

End initialised_heap.

Lemma Graph_init_messages_initialised h todo :
  Forall (node_runnable h) todo →
  ∀ hc nodes, messages_initialised h nodes hc →
    ∃ h', Graph_init_messages hc todo = Ok h'
          ∧ messages_initialised h (reverse todo ++ nodes) h'.
Proof.
  induction 1 as [|n todo Hn _ IH]; intros hc nodes Hinv; simpl.
  - by exists hc.
  - destruct (node_init_lbp_step h hc nodes Hinv n Hn) as (hc' & -> & Hinv'). simpl.
    destruct (IH hc' (n :: nodes) Hinv') as (h' & -> & Hinv'').
    exists h'. split; [done |]. by rewrite reverse_cons, <- app_assoc.
Qed.

(** X12: on every graph whose RVs have non-negative cardinalities, [lbp]
    leaves the while loop after the first sweep with [converged] true,
    whatever the factors' beliefs are: [_init_messages] has set every
    outgoing message of the graph's RVs and factors to all ones, the sweep
    stores the same messages again, and no other object of the heap is
    touched. *)
Theorem lbp_stops_after_one_sweep (h : Heap) (g : Graph.t) :
  lbp_runnable h g →
  ∃ h', Graph_lbp h g = Ok (h', 1%nat, true)
        ∧ Graph_init_messages h (Graph_sorted_nodes h g) = Ok h'
        ∧ messages_initialised h (graph_nodes g) h'.
Proof.
  intros Hrun. unfold Graph_lbp.
  assert (Graph_sorted_nodes h g ≡ₚ graph_nodes g) as Hperm by apply py_sorted_perm.
  assert (Forall (node_runnable h) (Graph_sorted_nodes h g)) as Hrun'.
  { by rewrite Hperm. }
  destruct (Graph_init_messages_initialised h _ Hrun' h [] (messages_initialised_nil h))
    as (h' & Hinit & Hinv).
  rewrite app_nil_r in Hinv. exists h'. rewrite Hinit. simpl. split_and!; [| done |].
  - unfold LBP_MAX_ITERS. cbn [lbp_while].
    rewrite (lbp_sweep_initialised h h' (reverse (Graph_sorted_nodes h g)) Hinv); [done | done |].
    intros n Hn. by apply elem_of_reverse.
  - eapply messages_initialised_ext; [|exact Hinv].
    intros n. by rewrite elem_of_reverse, Hperm.
Qed.

Lemma lbp_stops_after_one_sweep_witness :
  ∃ h', Graph_lbp pyfac_heap pyfac_graph = Ok (h', 1%nat, true)
        ∧ Graph_init_messages pyfac_heap (Graph_sorted_nodes pyfac_heap pyfac_graph) = Ok h'
        ∧ messages_initialised pyfac_heap (graph_nodes pyfac_graph) h'.
Proof.
  apply (lbp_stops_after_one_sweep pyfac_heap pyfac_graph).
  unfold lbp_runnable.
  change (graph_nodes pyfac_graph)
    with [RVNode 0; RVNode 1; FactorNode 0; FactorNode 1].
  repeat constructor; vm_compute; congruence.
Defined.

(** ** [Factor.attach] and the constructors *)

Lemma for_each_ne {A} `{EqDecision A} (b : A) (l : list A) :
  for_each (λ a, py_assert (negb (bool_decide (a = b)))) l
  = if bool_decide (b ∈ l) then Raise AssertionError else Ok tt.
Proof.
  induction l as [|a l IH]; simpl; [done |].
  destruct (decide (a = b)) as [->|Hne].
  - rewrite !bool_decide_eq_true_2; [done | left | done].
  - rewrite (bool_decide_eq_false_2 (a = b)) by done. simpl. rewrite IH.
    apply (f_equal (λ c : bool, if c then Raise AssertionError else Ok tt)).
    apply bool_decide_ext. rewrite elem_of_cons.
    split; [by right | intros [?|?]; [congruence | done]].
Qed.

Lemma Factor_attach_cases h f r :
  Factor_attach h f r
  = if (Factor.debug (the_factor h f) && bool_decide (r ∈ Factor._rvs (the_factor h f)))
       || (RV.debug (the_rv h r) && bool_decide (f ∈ RV._factors (the_rv h r)))
    then Raise AssertionError
    else Ok (store_factor
               (store_rv h r (RV_with_factors (the_rv h r)
                                (RV._factors (the_rv h r) ++ [f])))
               f (Factor.mk (Factor.name (the_factor h f)) (Factor.debug (the_factor h f))
                    (Factor._rvs (the_factor h f) ++ [r]) None
                    (Factor._outgoing (the_factor h f)))).
Proof.
  unfold Factor_attach, RV_attach, RV_with_factors, when. rewrite !for_each_ne.
  destruct (Factor.debug (the_factor h f)), (RV.debug (the_rv h r));
    simpl; repeat case_bool_decide; done.
Qed.

Lemma RV_with_factors_same rv : RV_with_factors rv (RV._factors rv) = rv.
Proof. by destruct rv. Qed.

Lemma attached_nil h f : attached h f [] h.
Proof.
  split_and!; [done | done | rewrite app_nil_r; by destruct (the_factor h f) | done |].
  intros r. simpl. by rewrite app_nil_r, RV_with_factors_same.
Qed.

Lemma attached_trans h h1 h2 f rs1 rs2 :
  attached h f rs1 h1 → attached h1 f rs2 h2 → attached h f (rs1 ++ rs2) h2.
Proof.
  intros (Hl1 & Hl1' & Hf1 & Ho1 & Hr1) (Hl2 & Hl2' & Hf2 & Ho2 & Hr2).
  split_and!; [congruence | congruence | | |].
  - rewrite Hf2, Hf1. simpl. rewrite <- app_assoc. f_equal.
    destruct rs1, rs2; simpl; done.
  - intros f' Hf'. by rewrite Ho2, Ho1.
  - intros r. rewrite Hr2, Hr1. unfold RV_with_factors. simpl.
    by rewrite filter_app, fmap_app, app_assoc.
Qed.

Lemma Factor_attach_attached h f r h' :
  (f < length (factor_objs h))%nat → (r < length (rv_objs h))%nat →
  Factor_attach h f r = Ok h' → attached h f [r] h'.
Proof.
  intros Hf Hr. rewrite Factor_attach_cases.
  destruct (_ || _); [done |]. intros [= <-].
  unfold attached, the_factor, the_rv, store_factor, store_rv. simpl.
  rewrite !length_insert. split_and!; [done | done | | |].
  - by rewrite list_lookup_total_insert_eq.
  - intros f' Hf'. by rewrite list_lookup_total_insert_ne.
  - intros r'. destruct (decide (r = r')) as [<-|Hne].
    + rewrite list_lookup_total_insert_eq by done.
      by rewrite filter_cons_True, filter_nil.
    + rewrite list_lookup_total_insert_ne by done.
      rewrite filter_cons_False, filter_nil by done. simpl.
      by rewrite app_nil_r, RV_with_factors_same.
Qed.

Lemma attach_all_attached h f rs h' :
  (f < length (factor_objs h))%nat → Forall (λ r, r < length (rv_objs h))%nat rs →
  attach_all h f rs = Ok h' → attached h f rs h'.
Proof.
  intros Hf Hrs. revert h Hf Hrs. induction rs as [|r rs IH]; intros h Hf Hrs; simpl.
  - intros [= <-]. apply attached_nil.
  - intros (h1 & Hstep & Hrest)%bind_Ok. apply Forall_cons in Hrs as [Hr Hrs].
    pose proof (Factor_attach_attached h f r h1 Hf Hr Hstep) as H1.
    apply (attached_trans h h1 h' f [r] rs); [done |].
    destruct H1 as (Hl & Hl' & _). apply IH; [by rewrite Hl' | by rewrite Hl | done].
Qed.

Lemma attached_linked h f rs h' :
  (f < length (factor_objs h))%nat → Forall (λ r, r < length (rv_objs h))%nat rs →
  heap_linked h → attached h f rs h' → heap_linked h'.
Proof.
  intros Hf Hrs [Hfr Hrf] (Hl & Hl' & Hfac & Hother & Hrv).
  rewrite Forall_forall in Hrs. split.
  - intros f0 r0. rewrite Hl, Hl', Hrv. simpl. intros Hf0.
    destruct (decide (f0 = f)) as [->|Hne].
    + rewrite Hfac. simpl. intros [Hin|Hin]%elem_of_app.
      * destruct (Hfr f r0 Hf Hin) as [? ?]. split; [done |]. apply elem_of_app. by left.
      * split; [by apply Hrs |]. apply elem_of_app. right.
        apply list_elem_of_fmap. exists r0. split; [done |]. by apply list_elem_of_filter.
    + rewrite Hother by done. intros Hin.
      destruct (Hfr f0 r0 Hf0 Hin) as [? ?]. split; [done |]. apply elem_of_app. by left.
  - intros r0 f0. rewrite Hl, Hl', Hrv. simpl. intros Hr0 [Hin|Hin]%elem_of_app.
    + destruct (Hrf r0 f0 Hr0 Hin) as [? ?]. split; [done |].
      destruct (decide (f0 = f)) as [->|Hne].
      * rewrite Hfac. simpl. apply elem_of_app. by left.
      * by rewrite Hother.
    + apply list_elem_of_fmap in Hin as (r' & -> & [-> Hin]%list_elem_of_filter).
      split; [done |]. rewrite Hfac. simpl. apply elem_of_app. by right.
Qed.

Lemma eval_without_belief h fac x :
  Factor._belief fac = None → Factor._rvs fac ≠ [] →
  ∃ e, Factor_eval h fac x = Raise e.
Proof.
  intros Hb Hrvs. unfold Factor_eval.
  destruct (when _ _) as [[]|e]; simpl; [|by eauto]. rewrite Hb.
  destruct (Factor._rvs fac) as [|r rs]; [done |]. rewrite eval_index_cons.
  destruct (label_index h x r) as [i|e]; simpl; eauto.
Qed.

(** X13: [Factor.attach] on a factor [f] and an RV [r]. When it returns,
    [r] is the last of [f]'s RVs and [f] the last of [r]'s factors, the
    belief of [f] is cleared, so that [eval] raises until a belief is set
    again, nothing else has changed, and factors and RVs still refer to
    each other if they did. It raises, and then [AssertionError], exactly
    when [f] has its debug checks on and holds [r] already, or [r] has
    them on and holds [f] already. *)
Theorem attach_links_both_sides (h : Heap) (f r : nat) :
  (f < length (factor_objs h))%nat → (r < length (rv_objs h))%nat →
  match Factor_attach h f r with
  | Ok h' =>
      Factor._rvs (the_factor h' f) = (Factor._rvs (the_factor h f) ++ [r])%list
      ∧ RV._factors (the_rv h' r) = (RV._factors (the_rv h r) ++ [f])%list
      ∧ Factor._belief (the_factor h' f) = None
      ∧ (∀ x, ∃ e, Factor_eval h' (the_factor h' f) x = Raise e)
      ∧ attached h f [r] h'
      ∧ (heap_linked h → heap_linked h')
      ∧ (Factor.debug (the_factor h f) = true → r ∉ Factor._rvs (the_factor h f))
      ∧ (RV.debug (the_rv h r) = true → f ∉ RV._factors (the_rv h r))
  | Raise e =>
      e = AssertionError
      ∧ ((Factor.debug (the_factor h f) = true ∧ r ∈ Factor._rvs (the_factor h f))
         ∨ (RV.debug (the_rv h r) = true ∧ f ∈ RV._factors (the_rv h r)))
  end.
Proof.
  intros Hf Hr. destruct (Factor_attach h f r) as [h'|e] eqn:Hattach.
  - pose proof (Factor_attach_attached h f r h' Hf Hr Hattach) as Hatt.
    pose proof Hatt as (_ & _ & Hfac & _ & Hrv).
    assert (Factor._belief (the_factor h' f) = None) as Hb by by rewrite Hfac.
    split_and!; [by rewrite Hfac | | done | | done | | |].
    + rewrite Hrv. simpl. by rewrite filter_cons_True, filter_nil.
    + intros x. apply eval_without_belief; [done |]. rewrite Hfac. simpl.
      by destruct (Factor._rvs (the_factor h f)).
    + intros Hlinked. eapply attached_linked; [done | | done | done].
      by apply Forall_singleton.
    + intros Hd Hin. rewrite Factor_attach_cases, Hd, bool_decide_eq_true_2 in Hattach by done.
      done.
    + intros Hd Hin. rewrite Factor_attach_cases, Hd, (bool_decide_eq_true_2 (f ∈ _)),
        orb_true_r in Hattach by done.
      done.
  - rewrite Factor_attach_cases in Hattach.
    destruct (_ || _) eqn:Hcond; [|done]. injection Hattach as <-. split; [done |].
    apply orb_true_iff in Hcond as [[? ?%bool_decide_eq_true]%andb_true_iff
                                  | [? ?%bool_decide_eq_true]%andb_true_iff]; auto.
Qed.

Lemma attach_links_both_sides_witness :
  match Factor_attach unchecked_heap 0 0 with
  | Ok h' =>
      Factor._rvs (the_factor h' 0) = (Factor._rvs (the_factor unchecked_heap 0) ++ [0%nat])%list
      ∧ RV._factors (the_rv h' 0) = (RV._factors (the_rv unchecked_heap 0) ++ [0%nat])%list
      ∧ Factor._belief (the_factor h' 0) = None
      ∧ (∀ x, ∃ e, Factor_eval h' (the_factor h' 0) x = Raise e)
      ∧ attached unchecked_heap 0 [0%nat] h'
      ∧ (heap_linked unchecked_heap → heap_linked h')
      ∧ (Factor.debug (the_factor unchecked_heap 0) = true
         → 0%nat ∉ Factor._rvs (the_factor unchecked_heap 0))
      ∧ (RV.debug (the_rv unchecked_heap 0) = true
         → 0%nat ∉ RV._factors (the_rv unchecked_heap 0))
  | Raise e =>
      e = AssertionError
      ∧ ((Factor.debug (the_factor unchecked_heap 0) = true
          ∧ 0%nat ∈ Factor._rvs (the_factor unchecked_heap 0))
         ∨ (RV.debug (the_rv unchecked_heap 0) = true
            ∧ 0%nat ∈ RV._factors (the_rv unchecked_heap 0)))
  end.
Proof.
  apply (attach_links_both_sides unchecked_heap 0 0); simpl; lia.
Defined.

Lemma attach_all_debug h f rs h' :
  (f < length (factor_objs h))%nat → Forall (λ r, r < length (rv_objs h))%nat rs →
  Factor.debug (the_factor h f) = true → attach_all h f rs = Ok h' →
  NoDup rs ∧ ∀ r, r ∈ rs → r ∉ Factor._rvs (the_factor h f).
Proof.
  intros Hf Hrs. revert h Hf Hrs. induction rs as [|r rs IH]; intros h Hf Hrs Hd; simpl.
  - intros _. split; [constructor | by intros r ?%not_elem_of_nil].
  - intros (h1 & Hstep & Hrest)%bind_Ok. apply Forall_cons in Hrs as [Hr Hrs].
    pose proof (Factor_attach_attached h f r h1 Hf Hr Hstep) as (Hl & Hl' & Hfac & _).
    assert (r ∉ Factor._rvs (the_factor h f)) as Hnew.
    { intros Hin. by rewrite Factor_attach_cases, Hd, bool_decide_eq_true_2 in Hstep. }
    destruct (IH h1) as [Hnd Hfresh]; [by rewrite Hl' | by rewrite Hl | by rewrite Hfac | done |].
    rewrite Hfac in Hfresh. simpl in Hfresh. split.
    + apply NoDup_cons. split; [|done]. intros Hin. apply (Hfresh r Hin), elem_of_app.
      right. left.
    + intros r' [->|Hin]%elem_of_cons; [done |].
      intros Hold. apply (Hfresh r' Hin), elem_of_app. by left.
Qed.

Lemma attach_all_Raise h f rs e :
  (f < length (factor_objs h))%nat → Forall (λ r, r < length (rv_objs h))%nat rs →
  heap_linked h → attach_all h f rs = Raise e →
  e = AssertionError ∧ (¬ NoDup rs ∨ ∃ r, r ∈ rs ∧ r ∈ Factor._rvs (the_factor h f)).
Proof.
  intros Hf Hrs. revert h Hf Hrs. induction rs as [|r rs IH]; intros h Hf Hrs Hlinked; simpl;
    [done |].
  apply Forall_cons in Hrs as [Hr Hrs].
  destruct (Factor_attach h f r) as [h1|e'] eqn:Hstep; simpl.
  - intros Hrest.
    pose proof (Factor_attach_attached h f r h1 Hf Hr Hstep) as Hatt.
    pose proof Hatt as (Hl & Hl' & Hfac & _).
    destruct (IH h1) as [-> Hwhy]; [by rewrite Hl' | by rewrite Hl | | done |].
    { eapply attached_linked; [done | | done | done]. by apply Forall_singleton. }
    split; [done |]. destruct Hwhy as [Hnd|(r' & Hin & Hold)].
    + left. intros [_ ?]%NoDup_cons. done.
    + rewrite Hfac in Hold. simpl in Hold. apply elem_of_app in Hold as [Hold|Hold].
      * right. exists r'. split; [by right | done].
      * apply list_elem_of_singleton in Hold as ->. left. by intros [? _]%NoDup_cons.
  - intros [= ->]. rewrite Factor_attach_cases in Hstep.
    destruct (_ || _) eqn:Hcond; [|done]. injection Hstep as <-. split; [done |].
    right. exists r. split; [left |].
    apply orb_true_iff in Hcond as [[_ ?%bool_decide_eq_true]%andb_true_iff
                                  | [_ Hin%bool_decide_eq_true]%andb_true_iff]; [done |].
    destruct Hlinked as [_ Hrf]. by destruct (Hrf r f Hr Hin).
Qed.

(** X14: the constructor [Factor(rvs, name, debug)] on a heap whose factors
    and RVs refer to each other. When it returns, the new factor holds
    exactly [rvs] in the given order, with no belief and no messages; each
    RV has the new factor appended to its factors, once per occurrence in
    [rvs], and is otherwise as before; earlier factors are untouched; and
    factors and RVs still refer to each other. It raises only
    [AssertionError] and only when [rvs] has a repetition; with
    [debug=True] a repetition always makes it raise. *)
Theorem Factor_new_attaches_in_order (h : Heap) (rvs : list nat) (name : string)
    (debug : bool) :
  heap_linked h → Forall (λ r, r < length (rv_objs h))%nat rvs →
  match Factor_new h rvs name debug with
  | Ok (h', f) =>
      f = length (factor_objs h)
      ∧ length (factor_objs h') = S (length (factor_objs h))
      ∧ length (rv_objs h') = length (rv_objs h)
      ∧ the_factor h' f = Factor.mk name debug rvs None None
      ∧ (∀ f', (f' < f)%nat → the_factor h' f' = the_factor h f')
      ∧ (∀ r, the_rv h' r
              = RV_with_factors (the_rv h r)
                  (RV._factors (the_rv h r) ++ ((λ _, f) <$> filter (λ r', r' = r) rvs)))
      ∧ heap_linked h'
      ∧ (debug = true → NoDup rvs)
  | Raise e => e = AssertionError ∧ ¬ NoDup rvs
  end.
Proof.
  intros Hlinked Hrvs. unfold Factor_new.
  set (fac := Factor.mk name debug [] None None).
  set (h0 := mk_heap (rv_objs h) (factor_objs h ++ [fac])).
  set (f := length (factor_objs h)).
  assert (f < length (factor_objs h0))%nat as Hf.
  { unfold h0, f. simpl. rewrite length_app. simpl. lia. }
  assert (the_factor h0 f = fac) as Hnew.
  { unfold the_factor, h0. simpl. by apply list_lookup_total_middle. }
  assert (∀ f', (f' < f)%nat → the_factor h0 f' = the_factor h f') as Hold.
  { intros f' Hf'. unfold the_factor, h0. simpl. by apply lookup_total_app_l. }
  assert (heap_linked h0) as Hlinked0.
  { destruct Hlinked as [Hfr Hrf]. split.
    - intros f0 r0 Hf0. destruct (decide (f0 = f)) as [->|Hne].
      + rewrite Hnew. by intros ?%not_elem_of_nil.
      + assert (f0 < f)%nat as Hlt.
        { unfold h0 in Hf0. simpl in Hf0. rewrite length_app in Hf0. simpl in Hf0.
          unfold f in *. lia. }
        rewrite (Hold f0 Hlt). apply Hfr, Hlt.
    - intros r0 f0 Hr0 Hin. destruct (Hrf r0 f0 Hr0 Hin) as [Hlt ?].
      split; [lia |]. by rewrite (Hold f0 Hlt). }
  destruct (attach_all h0 f rvs) as [h'|e] eqn:Hattach; simpl.
  - pose proof (attach_all_attached h0 f rvs h' Hf Hrvs Hattach) as Hatt.
    pose proof Hatt as (Hl & Hl' & Hfac & Hother & Hrv).
    split_and!; [done | | done | | | done | |].
    + rewrite Hl'. unfold h0. simpl. rewrite length_app. simpl. lia.
    + rewrite Hfac, Hnew. simpl. by destruct rvs.
    + intros f' Hf'. rewrite Hother by lia. by apply Hold.
    + by eapply attached_linked.
    + intros ->. eapply attach_all_debug; [exact Hf | exact Hrvs | by rewrite Hnew | done].
  - destruct (attach_all_Raise h0 f rvs e Hf Hrvs Hlinked0 Hattach)
      as [-> [Hnd|(r & _ & Hin)]]; [done |].
    rewrite Hnew in Hin. by apply not_elem_of_nil in Hin.
Qed.

Lemma Factor_new_attaches_in_order_witness :
  match Factor_new labelled_rv_heap [0%nat] "" true with
  | Ok (h', f) =>
      f = length (factor_objs labelled_rv_heap)
      ∧ length (factor_objs h') = S (length (factor_objs labelled_rv_heap))
      ∧ length (rv_objs h') = length (rv_objs labelled_rv_heap)
      ∧ the_factor h' f = Factor.mk "" true [0%nat] None None
      ∧ (∀ f', (f' < f)%nat → the_factor h' f' = the_factor labelled_rv_heap f')
      ∧ (∀ r, the_rv h' r
              = RV_with_factors (the_rv labelled_rv_heap r)
                  (RV._factors (the_rv labelled_rv_heap r)
                   ++ ((λ _, f) <$> filter (λ r', r' = r) [0%nat])))
      ∧ heap_linked h'
      ∧ (true = true → NoDup [0%nat])
  | Raise e => e = AssertionError ∧ ¬ NoDup [0%nat]
  end.
Proof.
  apply (Factor_new_attaches_in_order labelled_rv_heap [0%nat] "" true).
  - split.
    + intros f r Hf. simpl in Hf. lia.
    + intros [|r] f Hr Hin; [|simpl in Hr; lia]. by apply not_elem_of_nil in Hin.
  - apply Forall_singleton. simpl. lia.
Defined.

(** X15: the constructor [RV(name, n_opts, labels, debug)] returns a fresh
    object with the given fields, no factors and no messages, and leaves
    every existing object as it was, so factors and RVs still refer to each
    other if they did. It raises, and then [AssertionError], exactly when
    [debug] is on and [labels] is neither empty nor of length [n_opts]. *)
Theorem RV_new_fresh (h : Heap) (name : string) (n_opts : Z) (labels : list string)
    (debug : bool) :
  match RV_new h name n_opts labels debug with
  | Ok (h', r) =>
      r = length (rv_objs h)
      ∧ the_rv h' r = RV.mk name n_opts labels debug [] None
      ∧ (∀ r', (r' < r)%nat → the_rv h' r' = the_rv h r')
      ∧ factor_objs h' = factor_objs h
      ∧ (heap_linked h → heap_linked h')
      ∧ (debug = true → labels = [] ∨ Z.of_nat (length labels) = n_opts)
  | Raise e =>
      e = AssertionError ∧ debug = true
      ∧ labels ≠ [] ∧ Z.of_nat (length labels) ≠ n_opts
  end.
Proof.
  unfold RV_new.
  set (rv := RV.mk name n_opts labels debug [] None).
  assert (∀ h', h' = mk_heap (rv_objs h ++ [rv]) (factor_objs h) →
            the_rv h' (length (rv_objs h)) = rv
            ∧ (∀ r', (r' < length (rv_objs h))%nat → the_rv h' r' = the_rv h r')
            ∧ factor_objs h' = factor_objs h
            ∧ (heap_linked h → heap_linked h')) as Hfresh.
  { intros h' ->.
    assert (the_rv (mk_heap (rv_objs h ++ [rv]) (factor_objs h)) (length (rv_objs h)) = rv)
      as Hnew by by apply list_lookup_total_middle.
    assert (∀ r', (r' < length (rv_objs h))%nat →
              the_rv (mk_heap (rv_objs h ++ [rv]) (factor_objs h)) r' = the_rv h r') as Hold.
    { intros r' Hr'. unfold the_rv. simpl. by apply lookup_total_app_l. }
    split_and!; [done.. |]. intros [Hfr Hrf]. split.
    - intros f r Hf Hin. destruct (Hfr f r Hf Hin) as [Hlt ?]. simpl.
      rewrite length_app. split; [simpl; lia |]. by rewrite (Hold r Hlt).
    - intros r f Hr. simpl in Hr. rewrite length_app in Hr. simpl in Hr.
      destruct (decide (r = length (rv_objs h))) as [->|Hne].
      + rewrite Hnew. by intros ?%not_elem_of_nil.
      + rewrite Hold by lia. apply Hrf. lia. }
  destruct debug; simpl.
  - destruct (decide (length labels = 0%nat)) as [Hnil|Hnil].
    + rewrite (bool_decide_eq_true_2 _ Hnil). simpl.
      destruct (Hfresh _ eq_refl) as (? & ? & ? & ?). split_and!; [done.. |].
      intros _. left. by apply nil_length_inv.
    + rewrite (bool_decide_eq_false_2 _ Hnil). simpl. case_bool_decide as Hlen; simpl.
      * destruct (Hfresh _ eq_refl) as (? & ? & ? & ?). split_and!; [done.. |]. auto.
      * split_and!; [done | done | | done]. intros ->. done.
  - destruct (Hfresh _ eq_refl) as (? & ? & ? & ?). split_and!; [done.. |]. done.
Qed.

(** X16: on an RV built with its debug checks on, every label is accepted
    by [has_label], and [get_int_label] maps it to an index that is an
    integer label of the RV: it lies in [0 .. n_opts - 1] and [has_label]
    accepts it. *)
Theorem checked_rv_labels_have_indices (h h' : Heap) (name : string) (n_opts : Z)
    (labels : list string) (r : nat) (s : string) :
  RV_new h name n_opts labels true = Ok (h', r) → s ∈ labels →
  RV_has_label (the_rv h' r) (VStr s) = Ok true
  ∧ ∃ i, RV_get_int_label (the_rv h' r) (VStr s) = Ok i
         ∧ 0 ≤ i < n_opts
         ∧ RV_has_label (the_rv h' r) (VInt i) = Ok true.
Proof.
  intros Hnew Hs.
  assert (the_rv h' r = RV.mk name n_opts labels true [] None
          ∧ Z.of_nat (length labels) = n_opts) as [Hrv Hlen].
  { unfold RV_new in Hnew. simpl in Hnew.
    destruct (decide (length labels = 0%nat)) as [Hnil|Hnil].
    { apply nil_length_inv in Hnil. subst labels. by apply not_elem_of_nil in Hs. }
    rewrite (bool_decide_eq_false_2 _ Hnil) in Hnew. simpl in Hnew.
    case_bool_decide as Hlen; [|done]. simpl in Hnew. injection Hnew as <- <-.
    split; [|done]. by apply list_lookup_total_middle. }
  rewrite Hrv. split.
  - by apply has_label_in_domain.
  - destruct (list_index_elem s labels Hs) as (k & Hk & Hlt).
    exists (Z.of_nat k). unfold RV_get_int_label. simpl. rewrite Hk.
    split_and!; [done | lia | lia |]. rewrite has_label_int. simpl.
    apply f_equal, Z.ltb_lt. lia.
Qed.

Lemma checked_rv_labels_have_indices_witness :
  RV_has_label (the_rv labelled_rv_heap 0) (VStr "sun") = Ok true
  ∧ ∃ i, RV_get_int_label (the_rv labelled_rv_heap 0) (VStr "sun") = Ok i
         ∧ 0 ≤ i < 2
         ∧ RV_has_label (the_rv labelled_rv_heap 0) (VInt i) = Ok true.
Proof.
  apply (checked_rv_labels_have_indices empty_heap labelled_rv_heap "weather" 2
           ["rain"; "sun"] 0 "sun").
  - reflexivity.
  - right. left.
Defined.

(** ** [Factor.eval] reads the belief in row-major order *)

Lemma getitem_chunk a d ds (i : nat) :
  nd_wf a → shape a = d :: ds → (i < d)%nat →
  length (take (size_of ds) (drop (i * size_of ds) (data a))) = size_of ds
  ∧ getitem (PyArray a) (Z.of_nat i)
    = match ds with
      | [] => match take (size_of ds) (drop (i * size_of ds) (data a)) with
              | v :: _ => Ok (PyFloat v)
              | [] => Raise IndexError
              end
      | _ :: _ => Ok (PyArray (mk_ndarray ds
                                 (take (size_of ds) (drop (i * size_of ds) (data a)))))
      end.
Proof.
  unfold nd_wf. intros Hwf Hs Hi. unfold getitem. rewrite Hs in *. simpl in Hwf.
  assert ((Z.of_nat i <? 0) = false) as Hlt0 by (apply Z.ltb_ge; lia).
  assert ((Z.of_nat d <=? Z.of_nat i) = false) as Hle by (apply Z.leb_gt; lia).
  rewrite Hlt0. simpl. rewrite Hlt0, Hle. simpl. rewrite Nat2Z.id. split; [|done].
  rewrite length_take, length_drop, Hwf.
  assert (i * size_of ds + size_of ds ≤ d * size_of ds)%nat; [nia | lia].
Qed.

Lemma eval_index_row_major h x rvs idx a :
  nd_wf a →
  Forall2 (λ d r, Z.of_nat d = RV.n_opts (the_rv h r)) (shape a) rvs →
  rvs ≠ [] →
  Forall2 (λ r i, label_index h x r = Ok (Z.of_nat i)
                  ∧ Z.of_nat i < RV.n_opts (the_rv h r)) rvs idx →
  ∃ v, data a !! flat_index (shape a) idx = Some v
       ∧ eval_index h x rvs (PyArray a) = Ok (PyFloat v).
Proof.
  intros Hwf Hshape Hne Hall. revert a Hwf Hshape Hne.
  induction Hall as [|r i rvs idx [Hi Hrange] Hall IH]; intros a Hwf Hshape Hne; [done |].
  rewrite eval_index_cons, (bind_Ok_l _ _ _ Hi).
  destruct (shape a) as [|d ds] eqn:Hs; [by inversion Hshape |].
  apply Forall2_cons in Hshape as [Hd Hds].
  destruct (getitem_chunk a d ds i Hwf Hs) as [Hlen Hget]; [lia |].
  rewrite Hget. destruct ds as [|d' ds'].
  - apply Forall2_nil_inv_l in Hds as ->. apply Forall2_nil_inv_l in Hall as ->.
    destruct (take _ _) as [|v l] eqn:Hchunk; [simpl in Hlen; discriminate |].
    exists v. split; [|done]. simpl.
    assert (take (size_of []) (drop (i * size_of []) (data a)) !! 0%nat = Some v) as Hv
      by by rewrite Hchunk.
    apply lookup_take_Some in Hv as [Hv _]. by rewrite lookup_drop in Hv.
  - simpl.
    destruct (IH (mk_ndarray (d' :: ds') (take (size_of (d' :: ds'))
                                            (drop (i * size_of (d' :: ds')) (data a)))))
      as (v & Hv & Heval); [done | done | |].
    { intros ->. by apply Forall2_nil_inv_r in Hds. }
    exists v. split; [|done]. cbn [shape data] in Hv.
    apply lookup_take_Some in Hv as [Hv _]. by rewrite lookup_drop in Hv.
Qed.

Lemma label_index_check_assigned h x r i :
  label_index h x r = Ok i → i < RV.n_opts (the_rv h r) →
  check_assigned x (the_rv h r) = Ok tt.
Proof.
  unfold label_index, check_assigned.
  destruct (x !! RV.name (the_rv h r)) as [[z|s]|]; simpl; [| |done].
  - intros [= ->] Hlt. rewrite has_label_int. simpl.
    by rewrite (proj2 (Z.ltb_lt _ _) Hlt).
  - destruct (list_index s (RV.labels (the_rv h r))) as [k|] eqn:Hk; [|done]. intros _ _.
    rewrite has_label_in_domain; [done |]. simpl.
    apply list_index_Some in Hk as [Hk _]. by eapply list_elem_of_lookup_2.
Qed.

(** X17: [eval] returns the entry of the belief at the indices the
    assignment gives, in attachment order: for a belief that fits the
    attached RVs and an assignment whose entry for the k-th attached RV
    stands for the index [i_k] (below that RV's cardinality), the result is
    the entry of the belief's data at the row-major position of
    [(i_1, ..., i_n)]. *)
Theorem eval_reads_row_major (h : Heap) (f : Factor.t) (x : assignment) (b : ndarray)
    (idx : list nat) :
  Factor._belief f = Some b → nd_wf b → shape_matches h f b → Factor._rvs f ≠ [] →
  Forall2 (λ r i, label_index h x r = Ok (Z.of_nat i)
                  ∧ Z.of_nat i < RV.n_opts (the_rv h r)) (Factor._rvs f) idx →
  ∃ v, data b !! flat_index (shape b) idx = Some v
       ∧ Factor_eval h f x = Ok (PyFloat v).
Proof.
  intros Hb Hwf Hshape Hne Hall.
  destruct (eval_index_row_major h x (Factor._rvs f) idx b Hwf Hshape Hne Hall)
    as (v & Hv & Heval).
  exists v. split; [done |]. unfold Factor_eval.
  assert (for_each (λ r, check_assigned x (the_rv h r)) (Factor._rvs f) = Ok tt) as ->.
  { apply for_each_Ok, Forall_forall. intros r Hr.
    apply list_elem_of_lookup in Hr as [k Hk].
    destruct (Forall2_lookup_l _ _ _ _ _ Hall Hk) as (i & _ & Hi & Hlt).
    by eapply label_index_check_assigned. }
  assert (when (Factor.debug f) (Ok tt) = Ok tt) as -> by by destruct (Factor.debug f).
  simpl. rewrite Hb, Heval. simpl. by destruct (Factor.debug f).
Qed.

Lemma eval_reads_row_major_witness :
  ∃ v, data (mk_ndarray [3; 2]%nat [0.2; 0.8; 0.4; 0.6; 0.1; 0.9]%float)
         !! flat_index (shape (mk_ndarray [3; 2]%nat [0.2; 0.8; 0.4; 0.6; 0.1; 0.9]%float))
              [2; 1]%nat = Some v
       ∧ Factor_eval pyfac_heap (the_factor pyfac_heap 1) {[ "a" := VInt 2; "b" := VInt 1 ]}
         = Ok (PyFloat v).
Proof.
  apply (eval_reads_row_major pyfac_heap (the_factor pyfac_heap 1)
           {[ "a" := VInt 2; "b" := VInt 1 ]}
           (mk_ndarray [3; 2]%nat [0.2; 0.8; 0.4; 0.6; 0.1; 0.9]%float) [2; 1]%nat).
  - reflexivity.
  - reflexivity.
  - unfold shape_matches. repeat constructor.
  - done.
  - repeat constructor.
Defined.

(** ** [Graph.joint] needs every attached RV *)

Lemma eval_missing_raises h fac x r :
  r ∈ Factor._rvs fac → x !! RV.name (the_rv h r) = None →
  ∃ e, Factor_eval h fac x = Raise e.
Proof.
  intros Hr Hx. unfold Factor_eval.
  destruct (when _ _) as [[]|e]; simpl; [|by eauto].
  destruct (eval_index_missing h x (Factor._rvs fac) r
              (match Factor._belief fac with Some b => PyArray b | None => PyNone end)
              Hr Hx) as [e ->].
  simpl. eauto.
Qed.

Lemma joint_loop_raises h x fs f :
  f ∈ fs → (∃ e, Factor_eval h (the_factor h f) x = Raise e) →
  ∀ prod, ∃ e, joint_loop h x fs prod = Raise e.
Proof.
  intros Hf [e He]. induction fs as [|f' fs IH]; intros prod.
  - by apply not_elem_of_nil in Hf.
  - simpl. destruct (decide (f' = f)) as [->|Hne].
    + rewrite He. simpl. eauto.
    + apply elem_of_cons in Hf as [?|Hf]; [congruence |].
      destruct (Factor_eval h (the_factor h f') x) as [v|e']; simpl; [|by eauto].
      destruct (py_imul prod v) as [prod'|e']; simpl; [|by eauto].
      by apply IH.
Qed.

(** X18: [joint] never returns a value for an assignment that lacks the
    name of an RV attached to one of the graph's factors, whether the
    debug checks of the graph and of its factors are on or off. *)
Theorem joint_needs_every_attached_rv (h : Heap) (g : Graph.t) (x : assignment)
    (f r : nat) :
  f ∈ Graph._factors g → r ∈ Factor._rvs (the_factor h f) →
  x !! RV.name (the_rv h r) = None →
  ∃ e, Graph_joint h g x = Raise e.
Proof.
  intros Hf Hr Hx. unfold Graph_joint.
  destruct (when _ _) as [[]|e]; simpl; [|by eauto].
  apply (joint_loop_raises h x _ f Hf). by eapply eval_missing_raises.
Qed.

Lemma joint_needs_every_attached_rv_witness :
  ∃ e, Graph_joint pyfac_heap pyfac_graph {[ "a" := VInt 0 ]} = Raise e.
Proof.
  apply (joint_needs_every_attached_rv pyfac_heap pyfac_graph {[ "a" := VInt 0 ]} 0 1).
  - change (Graph._factors pyfac_graph) with [0%nat; 1%nat]. left.
  - change (Factor._rvs (the_factor pyfac_heap 0)) with [1%nat]. left.
  - reflexivity.
Defined.
